(** * Chart-of-accounts importer (import_chart_of_accounts.py)

    A shallow embedding of the importer script and the properties its
    specification states about it.

    - Python [str] values are lists of Unicode code points.
    - The [accounts] table is a list of rows in insertion order; the
      connection keeps the table as committed and the table as the open
      transaction sees it.
    - Exceptions are values: every database call may raise
      [psycopg2.Error], decided by an oracle over the index of the call;
      [None.strip()] and [int] on a non-decimal digit raise another
      exception.  State survives an exception, as it does in Python. *)

From Stdlib Require Import ZArith Lia String Ascii.
From stdpp Require Import gmap list.

#[local] Open Scope Z_scope.
#[local] Set Warnings "-clear-no-such-hyp".

(** ** Strings *)

(** A Python [str]: the sequence of its code points. *)
Abbreviation str := (list Z).

(** A literal made of ASCII characters. *)
Definition lit (s : string) : str :=
  (λ a, Z.of_nat (nat_of_ascii a)) <$> list_ascii_of_string s.

(** The Cyrillic literals of the script, by code point. *)
Definition СИНТЕТИЧНА : str :=
  [1057; 1048; 1053; 1058; 1045; 1058; 1048; 1063; 1053; 1040].
Definition АНАЛИТИЧНА : str :=
  [1040; 1053; 1040; 1051; 1048; 1058; 1048; 1063; 1053; 1040].
Definition ДА : str := [1044; 1040].

(** What the script needs of Python's Unicode database: [str.isspace] and
    [str.isdigit] on one character, and the decimal value [int] reads.
    The tables themselves belong to the interpreter; the development is
    parametric in them and only relies on the facts below, which hold for
    every release: a decimal character is a digit with a value in 0..9,
    and the ASCII range is classified as usual.  A character can be a
    digit without being decimal (superscript two, for one): [isdigit]
    accepts it and [int] rejects it. *)
Class UnicodeData := {
  isspace : Z → bool;
  isdigit : Z → bool;
  decimal : Z → option Z;
  decimal_range c d : decimal c = Some d → 0 ≤ d ≤ 9;
  decimal_isdigit c d : decimal c = Some d → isdigit c = true;
  decimal_ascii c : 48 ≤ c ≤ 57 → decimal c = Some (c - 48);
  isdigit_ascii c : 0 ≤ c < 128 → isdigit c = true → 48 ≤ c ≤ 57;
  isspace_ascii c :
    0 ≤ c < 128 →
    isspace c = bool_decide (9 ≤ c ≤ 13 ∨ 28 ≤ c ≤ 32)
}.

(** The database restricted to ASCII: an instance to compute with. *)
Definition ascii_isspace (c : Z) : bool := bool_decide (9 ≤ c ≤ 13 ∨ 28 ≤ c ≤ 32).
Definition ascii_isdigit (c : Z) : bool := bool_decide (48 ≤ c ≤ 57).
Definition ascii_decimal (c : Z) : option Z :=
  if bool_decide (48 ≤ c ≤ 57) then Some (c - 48) else None.

#[program] Definition ascii_only : UnicodeData :=
  {| isspace := ascii_isspace; isdigit := ascii_isdigit; decimal := ascii_decimal |}.
Next Obligation.
  intros c d; unfold ascii_decimal; case_bool_decide; intros [= <-]; lia.
Qed.
Next Obligation.
  intros c d; unfold ascii_decimal, ascii_isdigit.
  case_bool_decide; [done | discriminate].
Qed.
Next Obligation.
  intros c Hc; unfold ascii_decimal; case_bool_decide; [done | lia].
Qed.
Next Obligation.
  intros c _; unfold ascii_isdigit; case_bool_decide; [done | discriminate].
Qed.
Next Obligation. done. Qed.

(** ** Exceptions *)

Inductive exn :=
| DatabaseError   (* psycopg2.Error *)
| OtherError.     (* AttributeError, ValueError: caught by [except Exception] *)

Inductive result (A : Type) :=
| Return (a : A)
| Raise (e : exn).
Arguments Return {A} a.
Arguments Raise {A} e.

#[global] Instance result_ret : MRet result := λ A a, Return a.
#[global] Instance result_bind : MBind result := λ A B f m,
  match m with
  | Return a => f a
  | Raise e => Raise e
  end.

(** ** Parsing the fields of a row *)

Inductive AccountType := ASSET | LIABILITY | EQUITY | REVENUE | EXPENSE.
Inductive VatDirection := NONE | INPUT | OUTPUT | BOTH.

#[global] Instance AccountType_eq_dec : EqDecision AccountType.
Proof. solve_decision. Defined.
#[global] Instance VatDirection_eq_dec : EqDecision VatDirection.
Proof. solve_decision. Defined.

Section Parsing.
Context {U : UnicodeData}.

(** [s.strip()]: whitespace removed at both ends. *)
Fixpoint lstrip (s : str) : str :=
  match s with
  | c :: s' => if isspace c then lstrip s' else s
  | [] => []
  end.
Definition rstrip (s : str) : str := reverse (lstrip (reverse s)).
Definition strip (s : str) : str := rstrip (lstrip s).

(** [v.strip()] on a field of a row: [None] has no such attribute. *)
Definition strip_field (v : option str) : result str :=
  match v with
  | Some s => Return (strip s)
  | None => Raise OtherError
  end.

(** [v.strip() if v else default]: [None] and the empty string are falsy. *)
Definition strip_or (default : str) (v : option str) : str :=
  match v with
  | Some ((_ :: _) as s) => strip s
  | _ => default
  end.

(** [type_map.get(type_str, 'ASSET')] *)
Definition parse_account_type (type_str : str) : AccountType :=
  if decide (type_str = lit "ASSET") then ASSET
  else if decide (type_str = lit "LIABILITY") then LIABILITY
  else if decide (type_str = lit "EQUITY") then EQUITY
  else if decide (type_str = lit "REVENUE") then REVENUE
  else if decide (type_str = lit "EXPENSE") then EXPENSE
  else ASSET.

(** [direction_map.get(direction_str, 'NONE')] *)
Definition parse_vat_direction (direction_str : str) : VatDirection :=
  if decide (direction_str = lit "NONE") then NONE
  else if decide (direction_str = lit "INPUT") then INPUT
  else if decide (direction_str = lit "OUTPUT") then OUTPUT
  else if decide (direction_str = lit "BOTH") then BOTH
  else NONE.

(** [int(c)] for a one-character string. *)
Definition int (c : Z) : result Z :=
  match decimal c with
  | Some d => Return d
  | None => Raise OtherError
  end.

Definition get_account_class (code : str) : result Z :=
  match code with
  | [] => Return 1
  | first_digit :: _ =>
      if isdigit first_digit then int first_digit else Return 1
  end.

End Parsing.

(** ** The accounts table *)

Module Account.
Record t := {
  id : Z;
  code : str;
  name : str;
  account_type : AccountType;
  account_class : Z;
  parent_id : option Z;
  level : Z;
  is_vat_applicable : bool;
  vat_direction : VatDirection;
  is_active : bool;
  is_analytical : bool;
  company_id : Z
}.

#[global] Instance eq_dec : EqDecision t.
Proof. solve_decision. Defined.
End Account.

(** The table declaration is not part of the script.  Identifiers are
    taken to come from a sequence, as [RETURNING id] suggests: an insert
    takes the next value.  A sequence is not rolled back. *)
Record Database := {
  accounts : list Account.t;
  id_seq : Z
}.

(** The codes the purge spares. *)
Definition seed_codes : list str := [lit "101"; lit "201"; lit "301"].

(** [DELETE FROM accounts WHERE company_id = %s AND code NOT IN (...)]:
    the rows that stay. *)
Definition purge (company_id : Z) (table : list Account.t) : list Account.t :=
  filter (λ a, ¬ (Account.company_id a = company_id ∧ Account.code a ∉ seed_codes)) table.

(** [SELECT id FROM accounts WHERE code = %s AND company_id = %s] followed
    by [fetchone()]: the first row of the result, if any. *)
Definition select_id (code : str) (company_id : Z) (table : list Account.t) : option Z :=
  Account.id <$> head (filter (λ a, Account.code a = code ∧ Account.company_id a = company_id) table).

(** [SELECT COUNT( * ) FROM accounts WHERE company_id = %s] *)
Definition count_accounts (company_id : Z) (table : list Account.t) : nat :=
  length (filter (λ a, Account.company_id a = company_id) table).

(** A row of the CSV file as [csv.DictReader] yields it: one value per
    column of the header, [None] where the line is shorter than the
    header. *)
Record Row := {
  Тип_сметка : option str;
  Код : option str;
  Име_на_сметка : option str;
  Тип : option str;
  Синтетична_сметка : option str;
  ДДС_приложимост : option str;
  ДДС_посока : option str
}.

(** ** The connection *)

Record Session := {
  conn : bool;                    (* [conn] is not [None] *)
  committed : list Account.t;     (* the table as committed *)
  working : list Account.t;       (* the table as the open transaction sees it *)
  next_id : Z;                    (* the identifier sequence *)
  calls : nat;                    (* database calls made so far *)
  commits : nat                   (* [conn.commit()] calls that returned *)
}.

Definition M (A : Type) : Type := Session → result A * Session.

#[global] Instance M_ret : MRet M := λ A a s, (Return a, s).
#[global] Instance M_bind : MBind M := λ A B f m s,
  match m s with
  | (Return a, s') => f a s'
  | (Raise e, s') => (Raise e, s')
  end.

(** A computation without effect on the connection. *)
Definition lift {A} (r : result A) : M A := λ s, (r, s).

Definition tick (s : Session) : Session :=
  {| conn := conn s; committed := committed s; working := working s;
     next_id := next_id s; calls := S (calls s); commits := commits s |}.

(** A string that can be sent as a parameter of a statement: it holds no
    NUL character.  (The file is decoded as UTF-8, so its strings hold
    nothing else that the driver could not encode.) *)
Definition adaptable (s : str) : Prop := 0 ∉ s.

Section Importer.
Context {U : UnicodeData}.

(** [fault n]: the [n]-th database call of the run raises
    [psycopg2.Error]. *)
Variable fault : nat → bool.

(** A call that reaches the database: it raises when the oracle says so,
    and otherwise acts on the session. *)
Definition db_call {A} (op : Session → A * Session) : M A := λ s,
  if fault (calls s) then (Raise DatabaseError, tick s)
  else let (a, s') := op s in (Return a, tick s').

(** Before [cur.execute] sends a statement it adapts the parameters, and
    psycopg2 refuses a string that holds a NUL character with a
    [ValueError], which is no [psycopg2.Error]; nothing has reached the
    database then.  Numbers, booleans and [None] are always adapted. *)
Definition adapt (strings : list str) : M () :=
  lift (if decide (Forall adaptable strings) then Return () else Raise OtherError).

(** [psycopg2.connect( **DB_CONFIG)] *)
Definition connect : M () :=
  db_call (λ s, ((), {| conn := true; committed := committed s; working := working s;
                        next_id := next_id s; calls := calls s; commits := commits s |})).

Definition set_working (table : list Account.t) (s : Session) : Session :=
  {| conn := conn s; committed := committed s; working := table;
     next_id := next_id s; calls := calls s; commits := commits s |}.

(** The [DELETE] of the purge step. *)
Definition execute_delete (company_id : Z) : M () :=
  db_call (λ s, ((), set_working (purge company_id (working s)) s)).

(** The lookup by code and company, with its [fetchone()]. *)
Definition execute_select_id (code : str) (company_id : Z) : M (option Z) :=
  adapt [code];;
  db_call (λ s, (select_id code company_id (working s), s)).

(** An [INSERT]: the row gets the next identifier of the sequence, which
    [RETURNING id] hands back. *)
Definition inserting (values : Z → Account.t) (s : Session) : Session :=
  {| conn := conn s; committed := committed s;
     working := working s ++ [values (next_id s)];
     next_id := next_id s + 1; calls := calls s; commits := commits s |}.

(** The strings among the parameters of an [INSERT] are the code and the
    name of the row; its type and its VAT direction are names of the
    enumerations. *)
Definition execute_insert (values : Z → Account.t) : M Z := λ s,
  let row := values (next_id s) in
  (adapt [Account.code row; Account.name row];;
   db_call (λ s, (next_id s, inserting values s))) s.

(** [conn.commit()]: what the transaction sees becomes the committed
    table. *)
Definition committing (s : Session) : Session :=
  {| conn := conn s; committed := working s; working := working s;
     next_id := next_id s; calls := calls s; commits := S (commits s) |}.

Definition commit : M () := db_call (λ s, ((), committing s)).

(** The final [SELECT COUNT( * )]. *)
Definition execute_count (company_id : Z) : M nat :=
  db_call (λ s, (count_accounts company_id (working s), s)).

(** [conn.rollback()]: the open transaction is discarded.  Should the
    call itself raise, the interpreter ends with status 1 all the same
    and the server discards the transaction with the connection. *)
Definition rollback (s : Session) : Session := set_working (committed s) s.

(** The [VALUES] of the two [INSERT] statements. *)
Definition synthetic_values (code name : str) (account_type : AccountType)
    (account_class : Z) (is_vat_applicable : bool) (vat_direction : VatDirection)
    (company_id : Z) (id : Z) : Account.t :=
  {| Account.id := id; Account.code := code; Account.name := name;
     Account.account_type := account_type; Account.account_class := account_class;
     Account.parent_id := None; Account.level := 1;
     Account.is_vat_applicable := is_vat_applicable;
     Account.vat_direction := vat_direction;
     Account.is_active := true; Account.is_analytical := false;
     Account.company_id := company_id |}.

Definition analytical_values (code name : str) (account_type : AccountType)
    (account_class : Z) (parent_id : option Z) (level : Z)
    (is_vat_applicable : bool) (vat_direction : VatDirection)
    (company_id : Z) (id : Z) : Account.t :=
  {| Account.id := id; Account.code := code; Account.name := name;
     Account.account_type := account_type; Account.account_class := account_class;
     Account.parent_id := parent_id; Account.level := level;
     Account.is_vat_applicable := is_vat_applicable;
     Account.vat_direction := vat_direction;
     Account.is_active := true; Account.is_analytical := true;
     Account.company_id := company_id |}.

(** The body of the first loop, for one synthetic row. *)
Definition synthetic_step (company_id : Z) (parent_map : gmap str Z) (account : Row)
  : M (gmap str Z) :=
  code ← lift (strip_field (Код account));
  name ← lift (strip_field (Име_на_сметка account));
  let account_type := parse_account_type (strip_or (lit "ASSET") (Тип account)) in
  account_class ← lift (get_account_class code);
  is_vat_applicable ← lift (s ← strip_field (ДДС_приложимост account);
                            mret (bool_decide (s = ДА)));
  let vat_direction := parse_vat_direction (strip_or (lit "NONE") (ДДС_посока account)) in
  existing ← execute_select_id code company_id;
  match existing with
  | Some existing_id => mret (<[code := existing_id]> parent_map)
  | None =>
      account_id ← execute_insert
        (synthetic_values code name account_type account_class
                          is_vat_applicable vat_direction company_id);
      mret (<[code := account_id]> parent_map)
  end.

Fixpoint synthetic_pass (company_id : Z) (parent_map : gmap str Z)
    (synthetic_accounts : list Row) : M (gmap str Z) :=
  match synthetic_accounts with
  | [] => mret parent_map
  | account :: rest =>
      parent_map' ← synthetic_step company_id parent_map account;
      synthetic_pass company_id parent_map' rest
  end.

(** [account['Синтетична сметка'].strip() if account['Синтетична сметка']
    else None] *)
Definition parent_code_of (account : Row) : option str :=
  match Синтетична_сметка account with
  | Some ((_ :: _) as s) => Some (strip s)
  | _ => None
  end.

(** [parent_map.get(parent_code) if parent_code else None] *)
Definition find_parent (parent_map : gmap str Z) (parent_code : option str) : option Z :=
  match parent_code with
  | Some ((_ :: _) as p) => parent_map !! p
  | _ => None
  end.

(** [2 if parent_id else 1]: [None] and [0] are falsy. *)
Definition level_of (parent_id : option Z) : Z :=
  match parent_id with
  | Some i => if decide (i = 0) then 1 else 2
  | None => 1
  end.

(** The body of the second loop, for one analytical row. *)
Definition analytical_step (company_id : Z) (parent_map : gmap str Z) (account : Row)
  : M () :=
  code ← lift (strip_field (Код account));
  name ← lift (strip_field (Име_на_сметка account));
  let parent_code := parent_code_of account in
  let account_type := parse_account_type (strip_or (lit "ASSET") (Тип account)) in
  account_class ← lift (get_account_class code);
  is_vat_applicable ← lift (s ← strip_field (ДДС_приложимост account);
                            mret (bool_decide (s = ДА)));
  let vat_direction := parse_vat_direction (strip_or (lit "NONE") (ДДС_посока account)) in
  let parent_id := find_parent parent_map parent_code in
  let level := level_of parent_id in
  existing ← execute_select_id code company_id;
  match existing with
  | Some _ => mret ()
  | None =>
      execute_insert
        (analytical_values code name account_type account_class parent_id level
                           is_vat_applicable vat_direction company_id);;
      mret ()
  end.

Fixpoint analytical_pass (company_id : Z) (parent_map : gmap str Z)
    (analytical_accounts : list Row) : M () :=
  match analytical_accounts with
  | [] => mret ()
  | account :: rest =>
      analytical_step company_id parent_map account;;
      analytical_pass company_id parent_map rest
  end.

(** The two list comprehensions over [all_accounts]. *)
Definition synthetic_accounts (all_accounts : list Row) : list Row :=
  filter (λ acc, Тип_сметка acc = Some СИНТЕТИЧНА) all_accounts.
Definition analytical_accounts (all_accounts : list Row) : list Row :=
  filter (λ acc, Тип_сметка acc = Some АНАЛИТИЧНА) all_accounts.

(** The part of the [try] block that runs inside the transaction: the
    purge and the two passes.  It hands back [parent_map], a local of the
    script, for the statements about it. *)
Definition transaction (company_id : Z) (all_accounts : list Row) : M (gmap str Z) :=
  connect;;
  execute_delete company_id;;
  parent_map ← synthetic_pass company_id ∅ (synthetic_accounts all_accounts);
  analytical_pass company_id parent_map (analytical_accounts all_accounts);;
  mret parent_map.

(** The whole [try] block. *)
Definition try_block (company_id : Z) (all_accounts : list Row) : M (gmap str Z) :=
  parent_map ← transaction company_id all_accounts;
  commit;;
  execute_count company_id;;
  mret parent_map.

(** What a run leaves behind. *)
Record Outcome := {
  exit_status : Z;
  raised : option exn;
  rolled_back : bool;             (* [conn.rollback()] was called *)
  committed_run : bool;           (* [conn.commit()] returned *)
  database : Database             (* the table as committed, and the sequence *)
}.

Definition open (db : Database) : Session :=
  {| conn := false; committed := accounts db; working := accounts db;
     next_id := id_seq db; calls := 0; commits := 0 |}.

Definition persisted (s : Session) : Database :=
  {| accounts := committed s; id_seq := next_id s |}.

(** [import_accounts(csv_file_path, company_id)] on the rows of a file
    that could be read, up to the end of the process: [sys.exit(1)] in
    the two handlers, status 0 when the block returns.  The second
    handler does not roll back; the transaction it leaves open dies with
    the connection, so what stays is the committed table all the same. *)
Definition import_accounts (db : Database) (all_accounts : list Row) (company_id : Z)
  : Outcome :=
  match try_block company_id all_accounts (open db) with
  | (Return _, s) =>
      {| exit_status := 0; raised := None; rolled_back := false;
         committed_run := bool_decide (commits s ≠ 0%nat); database := persisted s |}
  | (Raise DatabaseError, s) =>
      let s' := if conn s then rollback s else s in
      {| exit_status := 1; raised := Some DatabaseError; rolled_back := conn s;
         committed_run := bool_decide (commits s ≠ 0%nat); database := persisted s' |}
  | (Raise OtherError, s) =>
      {| exit_status := 1; raised := Some OtherError; rolled_back := false;
         committed_run := bool_decide (commits s ≠ 0%nat); database := persisted s |}
  end.

End Importer.

(** [import_accounts(csv_file)] as the script calls it: the default
    company. *)
Definition main {U : UnicodeData} (fault : nat → bool) (db : Database)
    (all_accounts : list Row) : Outcome :=
  import_accounts fault db all_accounts 1.

(** ** Vocabulary of the statements *)

(** The code of a row as both loops compute it. *)
Definition code_of {U : UnicodeData} (account : Row) : option str :=
  strip <$> Код account.

Definition codes_in {U : UnicodeData} (rows : list Row) : list str :=
  omap code_of rows.

(** The codes the table holds for a company, in table order. *)
Definition codes_of (company_id : Z) (table : list Account.t) : list str :=
  Account.code <$> filter (λ a, Account.company_id a = company_id) table.

(** Codes are unique within the company. *)
Definition unique_codes (company_id : Z) (table : list Account.t) : Prop :=
  NoDup (codes_of company_id table).

(** The codes a run of lookups and inserts adds to a table that holds
    [seen]: the first occurrence of every code that is not there yet. *)
Fixpoint inserted_codes (seen : list str) (codes : list str) : list str :=
  match codes with
  | [] => []
  | x :: rest =>
      if decide (x ∈ seen) then inserted_codes seen rest
      else x :: inserted_codes (x :: seen) rest
  end.

(** Identifiers as a sequence that starts at 1 hands them out: those in
    the table are positive, and so is the next one. *)
Definition positive_ids (db : Database) : Prop :=
  0 < id_seq db ∧ Forall (λ a, 0 < Account.id a) (accounts db).

(** No database call fails. *)
Definition no_fault : nat → bool := λ _, false.

(** The database fails at call [n] and at no other. *)
Definition fault_at (n : nat) : nat → bool := λ k, bool_decide (k = n).

(** Nothing but [commit] touches the committed table, and nothing closes
    the connection. *)
Definition frame (s s' : Session) : Prop :=
  committed s' = committed s ∧ commits s' = commits s ∧ (conn s = true → conn s' = true).

(** A computation that keeps the frame, however it ends. *)
Definition keeps {A} (m : M A) : Prop := ∀ s, frame s (m s).2.

(** What [m] returns, [m'] returns as well: [m'] is [m] without its
    failures. *)
Definition faultless {A} (m m' : M A) : Prop :=
  ∀ s a s', m s = (Return a, s') → m' s = (Return a, s').

(** One lookup of [x] followed by an insert when it finds nothing. *)
Definition looked_up (c : Z) (x : str) (s s1 : Session) : Prop :=
  match select_id x c (working s) with
  | Some _ => working s1 = working s ∧ next_id s1 = next_id s
  | None =>
      ∃ a, working s1 = working s ++ [a] ∧ Account.code a = x ∧
           Account.company_id a = c ∧ Account.id a = next_id s ∧
           next_id s1 = next_id s + 1
  end.

(** The lookups of [codes] in turn: the table grows by one row of the
    company per inserted code, with identifiers off the sequence. *)
Definition run_of (c : Z) (codes : list str) (s s' : Session) : Prop :=
  ∃ new,
    working s' = working s ++ new ∧
    Forall (λ a, Account.company_id a = c ∧ next_id s ≤ Account.id a < next_id s') new ∧
    Account.code <$> new = inserted_codes (codes_of c (working s)) codes ∧
    next_id s ≤ next_id s'.

(** ** A small chart, for the examples *)

Definition Доставчици : str :=
  [1044; 1086; 1089; 1090; 1072; 1074; 1095; 1080; 1094; 1080].

Definition example_row (record_type code name parent : str) : Row :=
  {| Тип_сметка := Some record_type; Код := Some code; Име_на_сметка := Some name;
     Тип := Some (lit "LIABILITY"); Синтетична_сметка := Some parent;
     ДДС_приложимост := Some ДА; ДДС_посока := Some (lit "INPUT") |}.

Definition row_41 : Row := example_row СИНТЕТИЧНА (lit "41") Доставчици [].
Definition row_4111 : Row := example_row АНАЛИТИЧНА (lit " 4111") (lit "Local") (lit "41 ").
Definition row_4112 : Row := example_row АНАЛИТИЧНА (lit "4112") (lit "Abroad") (lit "49").
Definition row_note : Row := example_row (lit "NOTE") (lit "4") (lit "Class 4") [].
Definition example_file : list Row := [row_41; row_note; row_4111; row_4112].

Definition seed_101 : Account.t :=
  synthetic_values (lit "101") (lit "Capital") EQUITY 1 false NONE 1 1.
Definition old_411 : Account.t :=
  synthetic_values (lit "411") (lit "Customers") ASSET 4 false NONE 1 2.
Definition foreign_411 : Account.t :=
  synthetic_values (lit "411") (lit "Customers") ASSET 4 false NONE 2 3.
Definition example_db : Database :=
  {| accounts := [seed_101; old_411; foreign_411]; id_seq := 4 |}.

(** ** Vocabulary of the further statements *)

#[global] Instance Row_eq_dec : EqDecision Row.
Proof. solve_decision. Defined.

(** The enum values as the two parsers spell them. *)
Definition account_type_name (t : AccountType) : str :=
  match t with
  | ASSET => lit "ASSET"
  | LIABILITY => lit "LIABILITY"
  | EQUITY => lit "EQUITY"
  | REVENUE => lit "REVENUE"
  | EXPENSE => lit "EXPENSE"
  end.

Definition vat_direction_name (d : VatDirection) : str :=
  match d with
  | NONE => lit "NONE"
  | INPUT => lit "INPUT"
  | OUTPUT => lit "OUTPUT"
  | BOTH => lit "BOTH"
  end.

(** Latin-1 as Python classifies it: the ASCII range, the two further
    spaces (next line, no-break space), and the superscript digits one,
    two and three, which [isdigit] accepts and [int] rejects. *)
Definition latin1_isspace (c : Z) : bool :=
  bool_decide (9 ≤ c ≤ 13 ∨ 28 ≤ c ≤ 32 ∨ c = 133 ∨ c = 160).
Definition latin1_isdigit (c : Z) : bool :=
  bool_decide (48 ≤ c ≤ 57 ∨ c = 178 ∨ c = 179 ∨ c = 185).

#[program] Definition latin1 : UnicodeData :=
  {| isspace := latin1_isspace; isdigit := latin1_isdigit; decimal := ascii_decimal |}.
Next Obligation.
  intros c d; unfold ascii_decimal; case_bool_decide; intros [= <-]; lia.
Qed.
Next Obligation.
  intros c d; unfold ascii_decimal, latin1_isdigit.
  case_bool_decide; [| discriminate]. intros _. apply bool_decide_eq_true. lia.
Qed.
Next Obligation.
  intros c Hc; unfold ascii_decimal; case_bool_decide; [done | lia].
Qed.
Next Obligation.
  intros c Hc; unfold latin1_isdigit. intros H%bool_decide_eq_true. lia.
Qed.
Next Obligation.
  intros c Hc. unfold latin1_isspace. apply bool_decide_ext. lia.
Qed.

(** The locals both loops compute from a row before they look its code
    up, in the order of the script: [code], [name], [account_type],
    [account_class], [is_vat_applicable], [vat_direction]. *)
Definition row_values {U : UnicodeData} (account : Row)
  : result (str * str * AccountType * Z * bool * VatDirection) :=
  code ← strip_field (Код account);
  name ← strip_field (Име_на_сметка account);
  let account_type := parse_account_type (strip_or (lit "ASSET") (Тип account)) in
  account_class ← get_account_class code;
  is_vat_applicable ← (s ← strip_field (ДДС_приложимост account);
                       mret (bool_decide (s = ДА)));
  let vat_direction := parse_vat_direction (strip_or (lit "NONE") (ДДС_посока account)) in
  mret (code, name, account_type, account_class, is_vat_applicable, vat_direction).

(** A row both loops can read: no exception before the lookup. *)
Definition readable {U : UnicodeData} (account : Row) : Prop :=
  ∃ v, row_values account = Return v.

(** A row whose lookup reaches the database: it can be read, and its code
    can be sent. *)
Definition searchable {U : UnicodeData} (account : Row) : Prop :=
  readable account ∧ ∃ code, code_of account = Some code ∧ adaptable code.

(** A row whose lookup and whose [INSERT] reach the database: it can be
    read, and its code and its name can be sent. *)
Definition sendable {U : UnicodeData} (account : Row) : Prop :=
  ∃ code name ty cls vat dir,
    row_values account = Return (code, name, ty, cls, vat, dir) ∧
    adaptable code ∧ adaptable name.

(** The account the first loop inserts for a row, under an identifier. *)
Definition synthetic_account {U : UnicodeData} (company_id : Z) (account : Row) (id : Z)
  : option Account.t :=
  match row_values account with
  | Return (code, name, account_type, account_class, is_vat_applicable, vat_direction) =>
      Some (synthetic_values code name account_type account_class
              is_vat_applicable vat_direction company_id id)
  | Raise _ => None
  end.

(** The account the second loop inserts for a row, under an identifier
    and with the parent map of the first loop. *)
Definition analytical_account {U : UnicodeData} (company_id : Z) (parent_map : gmap str Z)
    (account : Row) (id : Z) : option Account.t :=
  match row_values account with
  | Return (code, name, account_type, account_class, is_vat_applicable, vat_direction) =>
      let parent_id := find_parent parent_map (parent_code_of account) in
      Some (analytical_values code name account_type account_class
              parent_id (level_of parent_id)
              is_vat_applicable vat_direction company_id id)
  | Raise _ => None
  end.

(** What the two kinds of new account have in common: the columns as
    the loops compute them from the row. *)
Definition well_shaped {U : UnicodeData} (c : Z) (r : Row) (a : Account.t) : Prop :=
  Account.company_id a = c ∧ Account.is_active a = true ∧
  code_of r = Some (Account.code a) ∧
  strip <$> Име_на_сметка r = Some (Account.name a) ∧
  get_account_class (Account.code a) = Return (Account.account_class a) ∧
  Account.account_type a = parse_account_type (strip_or (lit "ASSET") (Тип r)) ∧
  Account.vat_direction a = parse_vat_direction (strip_or (lit "NONE") (ДДС_посока r)) ∧
  (∃ flag, ДДС_приложимост r = Some flag ∧
           Account.is_vat_applicable a = bool_decide (strip flag = ДА)) ∧
  Account.level a = level_of (Account.parent_id a).

(** Identifiers are distinct and below the next value of the sequence. *)
Definition fresh_ids (db : Database) : Prop :=
  NoDup (Account.id <$> accounts db) ∧
  Forall (λ a, Account.id a < id_seq db) (accounts db).

(** A computation that never moves the sequence back, however it ends. *)
Definition advances {A} (m : M A) : Prop := ∀ s, next_id s ≤ next_id (m s).2.

(** A computation that never raises a database error. *)
Definition quiet {A} (m : M A) : Prop := ∀ s, (m s).1 ≠ Raise DatabaseError.

(** The rows a loop inserted: the accounts of rows of its list, under
    consecutive identifiers off the sequence. *)
Definition inserted_by (account_of : Row → Z → option Account.t) (rows : list Row)
    (s s' : Session) (new : list Account.t) : Prop :=
  working s' = working s ++ new ∧
  Forall (λ a, ∃ r, r ∈ rows ∧ account_of r (Account.id a) = Some a) new ∧
  Account.id <$> new = seqZ (next_id s) (Z.of_nat (length new)) ∧
  next_id s' = next_id s + Z.of_nat (length new).

(** A row with a code that starts with a superscript two. *)
Definition row_squared : Row :=
  {| Тип_сметка := Some СИНТЕТИЧНА; Код := Some [178; 49]; Име_на_сметка := Some (lit "Squared");
     Тип := None; Синтетична_сметка := None;
     ДДС_приложимост := Some (lit "NE"); ДДС_посока := None |}.

(** A row with a NUL character in its code. *)
Definition row_nul : Row :=
  {| Тип_сметка := Some СИНТЕТИЧНА; Код := Some [52; 0; 49]; Име_на_сметка := Some (lit "Nul");
     Тип := None; Синтетична_сметка := None;
     ДДС_приложимост := Some (lit "NE"); ДДС_посока := None |}.

(** A line cut short after its record type and code. *)
Definition row_short : Row :=
  {| Тип_сметка := Some АНАЛИТИЧНА; Код := Some (lit "4113"); Име_на_сметка := None;
     Тип := None; Синтетична_сметка := None;
     ДДС_приложимост := None; ДДС_посока := None |}.

(** The two accounts the example file brings under 41. *)
Definition new_41 : Account.t :=
  synthetic_values (lit "41") Доставчици LIABILITY 4 true INPUT 1 4.
Definition new_4111 : Account.t :=
  analytical_values (lit "4111") (lit "Local") LIABILITY 4 (Some 4) 2 true INPUT 1 5.

(** * Properties *)

(** ** The monad *)

Lemma bind_unfold {A B} (m : M A) (f : A → M B) s :
  (m ≫= f) s =
  match m s with
  | (Return a, s') => f a s'
  | (Raise e, s') => (Raise e, s')
  end.
Proof. reflexivity. Qed.

Lemma bind_Return {A B} (m : M A) (f : A → M B) s b s' :
  (m ≫= f) s = (Return b, s') →
  ∃ a s1, m s = (Return a, s1) ∧ f a s1 = (Return b, s').
Proof.
  rewrite bind_unfold. destruct (m s) as [[a|e] s1]; [eauto | discriminate].
Qed.

Lemma lift_Return {A} (r : result A) s a s' :
  lift r s = (Return a, s') → r = Return a ∧ s' = s.
Proof. unfold lift. by intros [= -> ->]. Qed.

Lemma ret_Return {A} (x : A) s a s' :
  mret (M := M) x s = (Return a, s') → a = x ∧ s' = s.
Proof. by intros [= -> ->]. Qed.

Lemma db_call_Return {A} fault (op : Session → A * Session) s a s' :
  db_call fault op s = (Return a, s') →
  fault (calls s) = false ∧ a = (op s).1 ∧ s' = tick (op s).2.
Proof.
  unfold db_call. destruct (fault (calls s)); [discriminate |].
  destruct (op s) as [a1 s1]. by intros [= <- <-].
Qed.

Lemma adapt_Return strings s s' :
  adapt strings s = (Return (), s') → Forall adaptable strings ∧ s' = s.
Proof.
  unfold adapt, lift. destruct (decide (Forall adaptable strings)); [| discriminate].
  by intros [= ->].
Qed.

Lemma adapt_adaptable strings s :
  Forall adaptable strings → adapt strings s = (Return (), s).
Proof. intros H. unfold adapt, lift. by rewrite decide_True. Qed.

Lemma execute_select_id_Return {U : UnicodeData} fault code c s a s' :
  execute_select_id fault code c s = (Return a, s') →
  adaptable code ∧ a = select_id code c (working s) ∧ s' = tick s.
Proof.
  unfold execute_select_id. intros H.
  apply bind_Return in H as ([] & s1 & Ha & H).
  apply adapt_Return in Ha as [Ha ->].
  apply db_call_Return in H as (_ & -> & ->).
  rewrite Forall_singleton in Ha. done.
Qed.

Lemma execute_insert_Return fault values s a s' :
  execute_insert fault values s = (Return a, s') →
  adaptable (Account.name (values (next_id s))) ∧
  a = next_id s ∧ s' = tick (inserting values s).
Proof.
  unfold execute_insert. intros H.
  apply bind_Return in H as ([] & s1 & Ha & H).
  apply adapt_Return in Ha as [Ha ->].
  apply db_call_Return in H as (_ & -> & ->).
  rewrite Forall_cons, Forall_singleton in Ha. destruct Ha as [_ Ha]. done.
Qed.

(** [parsed H x Hx] peels a leading [x ← lift r; ...] off the computation
    that returned in [H]; [called H x] peels a leading database call. *)
Tactic Notation "parsed" hyp(H) ident(x) ident(Hx) :=
  let s1 := fresh "s" in
  apply bind_Return in H as (x & s1 & Hx & H);
  apply lift_Return in Hx as [Hx ->].

Tactic Notation "called" hyp(H) ident(x) :=
  let s1 := fresh "s" in
  let Hx := fresh "H" in
  apply bind_Return in H as (x & s1 & Hx & H);
  first [ apply execute_select_id_Return in Hx as (_ & -> & ->)
        | apply execute_insert_Return in Hx as (_ & -> & ->) ];
  simpl in H.

(** ** What every call leaves alone *)

Lemma frame_refl s : frame s s.
Proof. done. Qed.

Lemma frame_trans s1 s2 s3 : frame s1 s2 → frame s2 s3 → frame s1 s3.
Proof. unfold frame. intros (-> & -> & ?) (-> & -> & ?). auto. Qed.

Lemma keeps_ret {A} (a : A) : keeps (mret a).
Proof. intros s. apply frame_refl. Qed.

Lemma keeps_lift {A} (r : result A) : keeps (lift r).
Proof. intros s. apply frame_refl. Qed.

Lemma keeps_bind {A B} (m : M A) (f : A → M B) :
  keeps m → (∀ a, keeps (f a)) → keeps (m ≫= f).
Proof.
  intros Hm Hf s. rewrite bind_unfold. specialize (Hm s).
  destruct (m s) as [[a|e] s1]; simpl in *; [| done].
  eapply frame_trans; [done | apply Hf].
Qed.

Lemma keeps_db_call {A} fault (op : Session → A * Session) :
  (∀ s, frame s (op s).2) → keeps (db_call fault op).
Proof.
  intros Hop s. unfold db_call. destruct (fault (calls s)); [done |].
  specialize (Hop s). destruct (op s) as [a s1]. done.
Qed.

Section Steps.
Context {U : UnicodeData} (fault : nat → bool).

Lemma keeps_adapt strings : keeps (adapt strings).
Proof. apply keeps_lift. Qed.

Lemma keeps_select code c : keeps (execute_select_id fault code c).
Proof.
  apply keeps_bind; [apply keeps_adapt | intros _]. apply keeps_db_call. done.
Qed.

Lemma keeps_insert values : keeps (execute_insert fault values).
Proof.
  intros s. unfold execute_insert. cbv zeta.
  apply (keeps_bind (adapt _) (λ _, db_call fault _)); [apply keeps_adapt | intros _].
  apply keeps_db_call. done.
Qed.

Lemma keeps_delete c : keeps (execute_delete fault c).
Proof. apply keeps_db_call. done. Qed.

Lemma keeps_connect : keeps (connect fault).
Proof. apply keeps_db_call. done. Qed.

Lemma keeps_synthetic_step c pm r : keeps (synthetic_step fault c pm r).
Proof.
  unfold synthetic_step.
  do 4 (apply keeps_bind; [apply keeps_lift | intros ?]).
  apply keeps_bind; [apply keeps_select | intros [i|]]; [apply keeps_ret |].
  apply keeps_bind; [apply keeps_insert | intros ?; apply keeps_ret].
Qed.

Lemma keeps_synthetic_pass c rows : ∀ pm, keeps (synthetic_pass fault c pm rows).
Proof.
  induction rows as [|r rows IH]; intros pm; simpl.
  - apply keeps_ret.
  - apply keeps_bind; [apply keeps_synthetic_step | auto].
Qed.

Lemma keeps_analytical_step c pm r : keeps (analytical_step fault c pm r).
Proof.
  unfold analytical_step.
  do 4 (apply keeps_bind; [apply keeps_lift | intros ?]).
  apply keeps_bind; [apply keeps_select | intros [i|]]; [apply keeps_ret |].
  apply keeps_bind; [apply keeps_insert | intros ?; apply keeps_ret].
Qed.

Lemma keeps_analytical_pass c pm rows : keeps (analytical_pass fault c pm rows).
Proof.
  induction rows as [|r rows IH]; simpl.
  - apply keeps_ret.
  - apply keeps_bind; [apply keeps_analytical_step | auto].
Qed.

Lemma keeps_transaction c rows : keeps (transaction fault c rows).
Proof.
  unfold transaction.
  apply keeps_bind; [apply keeps_connect | intros _].
  apply keeps_bind; [apply keeps_delete | intros _].
  apply keeps_bind; [apply keeps_synthetic_pass | intros pm].
  apply keeps_bind; [apply keeps_analytical_pass | intros _].
  apply keeps_ret.
Qed.

End Steps.

(** ** Lookups in the table *)

Lemma codes_of_app c t1 t2 : codes_of c (t1 ++ t2) = codes_of c t1 ++ codes_of c t2.
Proof. unfold codes_of. by rewrite filter_app, fmap_app. Qed.

Lemma elem_of_codes_of c t x :
  x ∈ codes_of c t ↔ ∃ a, a ∈ t ∧ Account.code a = x ∧ Account.company_id a = c.
Proof.
  unfold codes_of. rewrite list_elem_of_fmap. setoid_rewrite list_elem_of_filter.
  naive_solver.
Qed.

Lemma select_id_None code c t : select_id code c t = None ↔ code ∉ codes_of c t.
Proof.
  unfold select_id. rewrite elem_of_codes_of.
  destruct (filter _ t) as [|a l] eqn:E; simpl.
  - split; [| done]. intros _ (a & Ha & Hc & Hco).
    assert (a ∈ filter (λ a, Account.code a = code ∧ Account.company_id a = c) t) as Hin
      by (apply list_elem_of_filter; auto).
    rewrite E in Hin. by apply elem_of_nil in Hin.
  - split; [done |]. intros []. exists a.
    assert (a ∈ filter (λ a, Account.code a = code ∧ Account.company_id a = c) t) as Hin
      by (rewrite E; left).
    apply list_elem_of_filter in Hin. naive_solver.
Qed.

Lemma select_id_Some code c t i :
  select_id code c t = Some i →
  ∃ a, a ∈ t ∧ Account.code a = code ∧ Account.company_id a = c ∧ Account.id a = i.
Proof.
  unfold select_id. destruct (filter _ t) as [|a l] eqn:E; simpl; [done |].
  intros [= <-]. exists a.
  assert (a ∈ filter (λ a, Account.code a = code ∧ Account.company_id a = c) t) as Hin
    by (rewrite E; left).
  apply list_elem_of_filter in Hin. naive_solver.
Qed.

(** A lookup that found a row finds the same row after more inserts. *)
Lemma select_id_app_Some code c t1 t2 i :
  select_id code c t1 = Some i → select_id code c (t1 ++ t2) = Some i.
Proof.
  unfold select_id. rewrite filter_app.
  destruct (filter _ t1) as [|a l]; simpl; [done | done].
Qed.

(** The row just inserted under a code that was free is the one found. *)
Lemma select_id_new code c t a :
  select_id code c t = None → Account.code a = code → Account.company_id a = c →
  select_id code c (t ++ [a]) = Some (Account.id a).
Proof.
  unfold select_id. rewrite filter_app. intros Hn Hc Hco.
  destruct (filter _ t) as [|b l]; [| done]. simpl.
  rewrite filter_cons. by destruct (decide _) as [|[]].
Qed.

(** ** One iteration of a loop *)

Section StepReturn.
Context {U : UnicodeData} (fault : nat → bool).

Lemma synthetic_step_Return c pm r s pm' s' :
  synthetic_step fault c pm r s = (Return pm', s') →
  ∃ code name ty cls vat dir,
    code_of r = Some code ∧ strip <$> Име_на_сметка r = Some name ∧
    frame s s' ∧
    match select_id code c (working s) with
    | Some i =>
        working s' = working s ∧ next_id s' = next_id s ∧ pm' = <[code := i]> pm
    | None =>
        working s' = working s ++ [synthetic_values code name ty cls vat dir c (next_id s)] ∧
        next_id s' = next_id s + 1 ∧ pm' = <[code := next_id s]> pm
    end.
Proof.
  intros H. pose proof (keeps_synthetic_step fault c pm r s) as Hk.
  rewrite H in Hk. simpl in Hk.
  unfold synthetic_step in H.
  parsed H code H1. parsed H name H2. parsed H cls H3. parsed H vat H4.
  called H ex.
  exists code, name, (parse_account_type (strip_or (lit "ASSET") (Тип r))), cls, vat,
    (parse_vat_direction (strip_or (lit "NONE") (ДДС_посока r))).
  unfold code_of. destruct (Код r) as [raw|]; [| discriminate].
  destruct (Име_на_сметка r) as [nraw|]; [| discriminate].
  simpl in H1, H2. injection H1 as <-. injection H2 as <-.
  do 3 (split; [done |]).
  destruct (select_id (strip raw) c (working s)) as [i|].
  - apply ret_Return in H as [-> ->]. done.
  - called H i. apply ret_Return in H as [-> ->]. done.
Qed.

Lemma analytical_step_Return c pm r s s' :
  analytical_step fault c pm r s = (Return (), s') →
  ∃ code name ty cls vat dir,
    code_of r = Some code ∧ strip <$> Име_на_сметка r = Some name ∧
    frame s s' ∧
    match select_id code c (working s) with
    | Some i => working s' = working s ∧ next_id s' = next_id s
    | None =>
        let parent_id := find_parent pm (parent_code_of r) in
        working s' = working s ++
          [analytical_values code name ty cls parent_id (level_of parent_id) vat dir c
             (next_id s)] ∧
        next_id s' = next_id s + 1
    end.
Proof.
  intros H. pose proof (keeps_analytical_step fault c pm r s) as Hk.
  rewrite H in Hk. simpl in Hk.
  unfold analytical_step in H.
  parsed H code H1. parsed H name H2. parsed H cls H3. parsed H vat H4.
  called H ex.
  exists code, name, (parse_account_type (strip_or (lit "ASSET") (Тип r))), cls, vat,
    (parse_vat_direction (strip_or (lit "NONE") (ДДС_посока r))).
  unfold code_of. destruct (Код r) as [raw|]; [| discriminate].
  destruct (Име_на_сметка r) as [nraw|]; [| discriminate].
  simpl in H1, H2. injection H1 as <-. injection H2 as <-.
  do 3 (split; [done |]).
  destruct (select_id (strip raw) c (working s)) as [i|].
  - apply ret_Return in H as [_ ->]. done.
  - called H i. apply ret_Return in H as [_ ->]. done.
Qed.

End StepReturn.

(** ** The codes a run inserts *)

Lemma inserted_codes_ext seen seen' codes :
  (∀ y, y ∈ seen ↔ y ∈ seen') → inserted_codes seen codes = inserted_codes seen' codes.
Proof.
  revert seen seen'. induction codes as [|x codes IH]; intros seen seen' Hext; simpl; [done |].
  destruct (decide (x ∈ seen)) as [Hx|Hx], (decide (x ∈ seen')) as [Hx'|Hx'].
  - by apply IH.
  - by apply Hext in Hx.
  - by apply Hext in Hx'.
  - f_equal. apply IH. intros y. rewrite !elem_of_cons, Hext. done.
Qed.

Lemma elem_of_inserted_codes seen codes x :
  x ∈ inserted_codes seen codes ↔ x ∈ codes ∧ x ∉ seen.
Proof.
  revert seen. induction codes as [|y codes IH]; intros seen; simpl.
  - rewrite elem_of_nil. naive_solver.
  - destruct (decide (y ∈ seen)) as [Hy|Hy].
    + rewrite IH, elem_of_cons. naive_solver.
    + rewrite !elem_of_cons, IH, elem_of_cons.
      destruct (decide (x = y)) as [->|]; naive_solver.
Qed.

Lemma NoDup_inserted_codes seen codes : NoDup (inserted_codes seen codes).
Proof.
  revert seen. induction codes as [|y codes IH]; intros seen; simpl.
  - constructor.
  - destruct (decide (y ∈ seen)); [apply IH |].
    constructor; [| apply IH].
    rewrite elem_of_inserted_codes, elem_of_cons. naive_solver.
Qed.

Lemma inserted_codes_app seen codes1 codes2 :
  inserted_codes seen (codes1 ++ codes2) =
  inserted_codes seen codes1 ++ inserted_codes (seen ++ inserted_codes seen codes1) codes2.
Proof.
  revert seen. induction codes1 as [|x codes1 IH]; intros seen; simpl.
  - by rewrite app_nil_r.
  - destruct (decide (x ∈ seen)) as [Hx|Hx]; [apply IH |].
    simpl. f_equal. rewrite IH. f_equal. apply inserted_codes_ext.
    intros y. set_solver.
Qed.

(** Adding to [seen] the codes of the run that satisfy [Q] removes those
    codes from what the run inserts, and nothing else. *)
Lemma inserted_codes_filter (Q : str → Prop) `{!∀ y, Decision (Q y)} codes :
  ∀ seen seen',
  (∀ y, y ∈ seen' ↔ y ∈ seen ∨ (Q y ∧ y ∈ codes)) →
  inserted_codes seen' codes = filter (λ y, ¬ Q y) (inserted_codes seen codes).
Proof.
  induction codes as [|x codes IH]; intros seen seen' Hs; simpl; [done |].
  destruct (decide (x ∈ seen)) as [Hx|Hx].
  - rewrite decide_True by (apply Hs; auto).
    apply IH. intros y. rewrite Hs, elem_of_cons. naive_solver.
  - rewrite filter_cons. destruct (decide (Q x)) as [HQ|HQ].
    + rewrite decide_True by (apply Hs; right; split; [done | left]).
      rewrite decide_False by tauto.
      apply IH. intros y. rewrite Hs, !elem_of_cons. naive_solver.
    + rewrite decide_False.
      2:{ rewrite Hs, elem_of_cons. naive_solver. }
      rewrite decide_True by done. f_equal.
      apply IH. intros y. rewrite !elem_of_cons, Hs, elem_of_cons. naive_solver.
Qed.

(** ** The effect of a loop on the table *)



Lemma codes_of_company c new :
  Forall (λ a, Account.company_id a = c) new → codes_of c new = Account.code <$> new.
Proof.
  intros H. unfold codes_of. f_equal.
  induction H as [|a new Ha _ IH]; [done |].
  rewrite filter_cons, decide_True by done. by f_equal.
Qed.

Lemma run_of_nil c s : run_of c [] s s.
Proof. exists []. rewrite app_nil_r. repeat split; [constructor | lia]. Qed.

Lemma run_of_cons c x codes s s1 s' :
  looked_up c x s s1 → run_of c codes s1 s' → run_of c (x :: codes) s s'.
Proof.
  unfold looked_up. intros Hx (new & Hw & Hall & Hcodes & Hid).
  destruct (select_id x c (working s)) as [i|] eqn:Hsel.
  - destruct Hx as [Hw1 Hn1]. rewrite Hw1, Hn1 in *. exists new.
    repeat split; try done. cbn [inserted_codes]. rewrite decide_True; [done |].
    destruct (decide (x ∈ codes_of c (working s))) as [|Hn]; [done |].
    apply select_id_None in Hn. congruence.
  - destruct Hx as (a & Hw1 & Hc & Hco & Hi & Hn1). apply select_id_None in Hsel.
    exists (a :: new). rewrite Hw, Hw1, <-app_assoc. split; [done |]. split; [| split; [| lia]].
    + constructor; [lia |]. eapply Forall_impl; [exact Hall |]. simpl. lia.
    + cbn [inserted_codes]. rewrite decide_False by done. rewrite fmap_cons, Hc. f_equal.
      rewrite Hcodes, Hw1, codes_of_app.
      apply inserted_codes_ext. intros y.
      rewrite (codes_of_company c [a]) by (by constructor).
      rewrite list_fmap_singleton, Hc. set_solver.
Qed.

Lemma run_of_company c codes s s' new :
  working s' = working s ++ new → run_of c codes s s' →
  Forall (λ a, Account.company_id a = c) new.
Proof.
  intros Hw (new' & Hw' & Hall & _). rewrite Hw in Hw'. apply app_inv_head in Hw' as ->.
  eapply Forall_impl; [exact Hall |]. naive_solver.
Qed.

Lemma run_of_codes c codes s s' x :
  run_of c codes s s' →
  x ∈ codes_of c (working s') ↔ x ∈ codes_of c (working s) ∨ x ∈ codes.
Proof.
  intros (new & Hw & Hall & Hcodes & _).
  rewrite Hw, codes_of_app, elem_of_app, (codes_of_company c new), Hcodes,
    elem_of_inserted_codes.
  - destruct (decide (x ∈ codes_of c (working s))); tauto.
  - eapply Forall_impl; [exact Hall |]. naive_solver.
Qed.

Lemma run_of_app c codes1 codes2 s s1 s' :
  run_of c codes1 s s1 → run_of c codes2 s1 s' → run_of c (codes1 ++ codes2) s s'.
Proof.
  intros (n1 & Hw1 & Hall1 & Hc1 & Hi1) (n2 & Hw2 & Hall2 & Hc2 & Hi2).
  exists (n1 ++ n2). rewrite Hw2, Hw1, <-app_assoc. split; [done |].
  split; [| split; [| lia]].
  - apply Forall_app. split; (eapply Forall_impl; [eassumption |]); simpl; lia.
  - rewrite fmap_app, inserted_codes_app, Hc1, Hc2, Hw1, codes_of_app. f_equal.
    rewrite (codes_of_company c n1), Hc1; [done |].
    eapply Forall_impl; [exact Hall1 |]. naive_solver.
Qed.

Lemma run_of_incl c codes s s' a : run_of c codes s s' → a ∈ working s → a ∈ working s'.
Proof. intros (new & -> & _) Ha. apply elem_of_app. auto. Qed.

Lemma run_of_select c codes s s' x i :
  run_of c codes s s' → select_id x c (working s) = Some i →
  select_id x c (working s') = Some i.
Proof. intros (new & -> & _). apply select_id_app_Some. Qed.

(** ** The two passes *)

Section Passes.
Context {U : UnicodeData} (fault : nat → bool).

Lemma synthetic_step_looked_up c pm r s pm' s' :
  synthetic_step fault c pm r s = (Return pm', s') →
  ∃ x, code_of r = Some x ∧ frame s s' ∧ looked_up c x s s' ∧
       is_Some (pm' !! x) ∧ pm' !! x = select_id x c (working s') ∧
       (∀ p, p ≠ x → pm' !! p = pm !! p).
Proof.
  intros H. apply synthetic_step_Return in H
    as (x & name & ty & cls & vat & dir & Hx & _ & Hf & H).
  exists x. split; [done |]. split; [done |]. unfold looked_up.
  destruct (select_id x c (working s)) as [i|] eqn:Hsel.
  - destruct H as (Hw & Hn & ->). rewrite Hw, Hsel, lookup_insert_eq.
    repeat split; eauto. intros p Hp. by rewrite lookup_insert_ne.
  - destruct H as (Hw & Hn & ->). rewrite Hw, lookup_insert_eq.
    split; [eauto 10 |]. split; [eauto |]. split.
    + by rewrite (select_id_new x c _ _ Hsel).
    + intros p Hp. by rewrite lookup_insert_ne.
Qed.

Lemma analytical_step_looked_up c pm r s s' :
  analytical_step fault c pm r s = (Return (), s') →
  ∃ x, code_of r = Some x ∧ frame s s' ∧ looked_up c x s s'.
Proof.
  intros H. apply analytical_step_Return in H
    as (x & name & ty & cls & vat & dir & Hx & _ & Hf & H).
  exists x. split; [done |]. split; [done |]. unfold looked_up.
  destruct (select_id x c (working s)) as [i|] eqn:Hsel; [done |].
  simpl in H. destruct H as (Hw & Hn). eauto 10.
Qed.

Lemma looked_up_select c x y s s' i :
  looked_up c x s s' → select_id y c (working s) = Some i →
  select_id y c (working s') = Some i.
Proof.
  unfold looked_up. destruct (select_id x c (working s)).
  - by intros [-> _].
  - intros (a & -> & _). apply select_id_app_Some.
Qed.

Lemma codes_in_cons r rows x : code_of r = Some x → codes_in (r :: rows) = x :: codes_in rows.
Proof. intros Hx. unfold codes_in. simpl. by rewrite Hx. Qed.

Lemma synthetic_pass_Return c rows : ∀ pm s pm' s',
  synthetic_pass fault c pm rows s = (Return pm', s') →
  frame s s' ∧ run_of c (codes_in rows) s s' ∧
  length (codes_in rows) = length rows ∧
  (∀ p, p ∈ codes_in rows → is_Some (pm' !! p) ∧ pm' !! p = select_id p c (working s')) ∧
  (∀ p, p ∉ codes_in rows → pm' !! p = pm !! p).
Proof.
  induction rows as [|r rows IH]; intros pm s pm' s' H; simpl in H.
  - apply ret_Return in H as [-> ->].
    split; [apply frame_refl |]. split; [apply run_of_nil |]. split; [done |].
    split; [| done]. intros p Hp. by apply elem_of_nil in Hp.
  - apply bind_Return in H as (pm1 & s1 & Hstep & Hrest).
    apply synthetic_step_looked_up in Hstep as (x & Hx & Hf1 & Hl & Hsome & Hpm1 & Hne).
    apply IH in Hrest as (Hf2 & Hrun & Hlen & Hin & Hout).
    rewrite (codes_in_cons _ _ _ Hx).
    split; [by eapply frame_trans |]. split; [by eapply run_of_cons |].
    split; [by rewrite length_cons, Hlen |]. split.
    + intros p Hp. destruct (decide (p ∈ codes_in rows)) as [Hp'|Hp']; [auto |].
      apply elem_of_cons in Hp as [->|]; [| done].
      rewrite (Hout _ Hp'). split; [done |].
      destruct Hsome as [i Hi]. rewrite Hi. symmetry.
      eapply run_of_select; [done |]. by rewrite <-Hpm1.
    + intros p Hp. apply not_elem_of_cons in Hp as [Hp1 Hp2].
      rewrite (Hout _ Hp2). by apply Hne.
Qed.

Lemma analytical_pass_Return c pm rows : ∀ s s',
  analytical_pass fault c pm rows s = (Return (), s') →
  frame s s' ∧ run_of c (codes_in rows) s s' ∧ length (codes_in rows) = length rows.
Proof.
  induction rows as [|r rows IH]; intros s s' H; simpl in H.
  - apply ret_Return in H as [_ ->].
    split; [apply frame_refl |]. split; [apply run_of_nil | done].
  - apply bind_Return in H as ([] & s1 & Hstep & Hrest).
    apply analytical_step_looked_up in Hstep as (x & Hx & Hf1 & Hl).
    apply IH in Hrest as (Hf2 & Hrun & Hlen).
    rewrite (codes_in_cons _ _ _ Hx).
    split; [by eapply frame_trans |]. split; [by eapply run_of_cons |].
    by rewrite length_cons, Hlen.
Qed.

(** A pass over a list in two parts is the pass over the first part
    followed by the pass over the second. *)
Lemma synthetic_pass_app c rows1 rows2 : ∀ pm s,
  synthetic_pass fault c pm (rows1 ++ rows2) s =
  (synthetic_pass fault c pm rows1 ≫= λ pm1, synthetic_pass fault c pm1 rows2) s.
Proof.
  induction rows1 as [|r rows1 IH]; intros pm s; simpl; [done |].
  rewrite !bind_unfold. destruct (synthetic_step fault c pm r s) as [[pm1|e] s1]; [| done].
  rewrite IH. by rewrite bind_unfold.
Qed.

Lemma analytical_pass_app c pm rows1 rows2 : ∀ s,
  analytical_pass fault c pm (rows1 ++ rows2) s =
  (analytical_pass fault c pm rows1;; analytical_pass fault c pm rows2) s.
Proof.
  induction rows1 as [|r rows1 IH]; intros s; simpl; [done |].
  rewrite !bind_unfold. destruct (analytical_step fault c pm r s) as [[[]|e] s1]; [| done].
  rewrite IH. by rewrite bind_unfold.
Qed.

Lemma codes_in_app rows1 rows2 : codes_in (rows1 ++ rows2) = codes_in rows1 ++ codes_in rows2.
Proof. apply omap_app. Qed.

(** The row that brings a code the table does not hold yet gets its
    account, and the account stays. *)
Lemma synthetic_pass_row c pre r post pm s pm' s' x :
  synthetic_pass fault c pm (pre ++ r :: post) s = (Return pm', s') →
  code_of r = Some x → x ∉ codes_of c (working s) → x ∉ codes_in pre →
  ∃ name ty cls vat dir i,
    strip <$> Име_на_сметка r = Some name ∧
    synthetic_values x name ty cls vat dir c i ∈ working s' ∧
    pm' !! x = Some i ∧ next_id s ≤ i.
Proof.
  intros H Hx Hfree Hpre.
  pose proof (synthetic_pass_Return _ _ _ _ _ _ H) as (_ & _ & _ & Hin & _).
  rewrite synthetic_pass_app in H.
  apply bind_Return in H as (pm1 & s1 & H1 & H). simpl in H.
  apply bind_Return in H as (pm2 & s2 & H2 & H3).
  apply synthetic_pass_Return in H1 as (_ & Hrun1 & _).
  apply synthetic_pass_Return in H3 as (_ & Hrun3 & _).
  apply synthetic_step_Return in H2
    as (x' & name & ty & cls & vat & dir & Hx' & Hname & _ & H2).
  assert (x' = x) as -> by congruence.
  assert (select_id x c (working s1) = None) as Hsel.
  { apply select_id_None. rewrite (run_of_codes _ _ _ _ _ Hrun1). tauto. }
  rewrite Hsel in H2. destruct H2 as (Hw2 & Hn2 & Hpm2).
  exists name, ty, cls, vat, dir, (next_id s1). split; [done |].
  split; [| split; [| by destruct Hrun1 as (? & _ & _ & _ & ?)]].
  - eapply run_of_incl; [done |]. rewrite Hw2. apply elem_of_app. right. left.
  - destruct (Hin x) as [_ ->].
    { rewrite codes_in_app, (codes_in_cons _ _ _ Hx). apply elem_of_app. right. left. }
    eapply run_of_select; [done |]. rewrite Hw2.
    by rewrite (select_id_new x c _ _ Hsel).
Qed.

Lemma analytical_pass_row c pm pre r post s s' x :
  analytical_pass fault c pm (pre ++ r :: post) s = (Return (), s') →
  code_of r = Some x → x ∉ codes_of c (working s) → x ∉ codes_in pre →
  ∃ name ty cls vat dir i,
    strip <$> Име_на_сметка r = Some name ∧
    let parent_id := find_parent pm (parent_code_of r) in
    analytical_values x name ty cls parent_id (level_of parent_id) vat dir c i ∈ working s'.
Proof.
  intros H Hx Hfree Hpre.
  rewrite analytical_pass_app in H.
  apply bind_Return in H as ([] & s1 & H1 & H). simpl in H.
  apply bind_Return in H as ([] & s2 & H2 & H3).
  apply analytical_pass_Return in H1 as (_ & Hrun1 & _).
  apply analytical_pass_Return in H3 as (_ & Hrun3 & _).
  apply analytical_step_Return in H2
    as (x' & name & ty & cls & vat & dir & Hx' & Hname & _ & H2).
  assert (x' = x) as -> by congruence.
  assert (select_id x c (working s1) = None) as Hsel.
  { apply select_id_None. rewrite (run_of_codes _ _ _ _ _ Hrun1). tauto. }
  rewrite Hsel in H2. simpl in H2. destruct H2 as (Hw2 & Hn2).
  exists name, ty, cls, vat, dir, (next_id s1). split; [done |]. simpl.
  eapply run_of_incl; [done |]. rewrite Hw2. apply elem_of_app. right. left.
Qed.

End Passes.

(** ** The transaction and the run *)

Lemma bind_Return_intro {A B} (m : M A) (f : A → M B) s a s1 b s' :
  m s = (Return a, s1) → f a s1 = (Return b, s') → (m ≫= f) s = (Return b, s').
Proof. intros H1 H2. by rewrite bind_unfold, H1. Qed.

Section Run.
Context {U : UnicodeData} (fault : nat → bool).

Lemma transaction_Return c file s pm s' :
  transaction fault c file s = (Return pm, s') →
  ∃ s1 s2,
    working s1 = purge c (working s) ∧ next_id s1 = next_id s ∧
    synthetic_pass fault c ∅ (synthetic_accounts file) s1 = (Return pm, s2) ∧
    analytical_pass fault c pm (analytical_accounts file) s2 = (Return (), s').
Proof.
  unfold transaction. intros H.
  apply bind_Return in H as ([] & s0 & H0 & H).
  apply db_call_Return in H0 as (_ & _ & ->).
  apply bind_Return in H as ([] & s1 & H1 & H).
  apply db_call_Return in H1 as (_ & _ & ->).
  apply bind_Return in H as (pm1 & s2 & H2 & H).
  apply bind_Return in H as ([] & s3 & H3 & H).
  apply ret_Return in H as [-> ->].
  eexists _, s2. split; [| split; [| split; [exact H2 | exact H3]]]; done.
Qed.

(** The table a transaction that ran to its end is about to commit. *)
Lemma transaction_table c file s pm s' :
  transaction fault c file s = (Return pm, s') →
  ∃ new,
    working s' = purge c (working s) ++ new ∧
    Forall (λ a, Account.company_id a = c ∧ next_id s ≤ Account.id a < next_id s') new ∧
    Account.code <$> new =
      inserted_codes (codes_of c (purge c (working s)))
        (codes_in (synthetic_accounts file) ++ codes_in (analytical_accounts file)).
Proof.
  intros H. apply transaction_Return in H as (s1 & s2 & Hw & Hn & H1 & H2).
  apply synthetic_pass_Return in H1 as (_ & Hr1 & _).
  apply analytical_pass_Return in H2 as (_ & Hr2 & _).
  destruct (run_of_app _ _ _ _ _ _ Hr1 Hr2) as (new & Hw' & Hall & Hc & _).
  exists new. rewrite <-Hw, <-Hn. done.
Qed.

(** No connection only when the first call, [connect], failed. *)
Lemma transaction_conn c file db :
  conn (transaction fault c file (open db)).2 = negb (fault 0%nat).
Proof.
  unfold transaction. rewrite bind_unfold. unfold connect at 1, db_call at 1. simpl.
  destruct (fault 0%nat); [done |]. simpl.
  match goal with |- conn (?m ?s).2 = true =>
    assert (keeps m) as Hk; [| by apply (Hk s)] end.
  apply keeps_bind; [apply keeps_delete | intros _].
  apply keeps_bind; [apply keeps_synthetic_pass | intros pm].
  apply keeps_bind; [apply keeps_analytical_pass | intros _].
  apply keeps_ret.
Qed.

(** The three ways the [try] block ends once the transaction ran to its
    end, and the one way it ends when it did not. *)
Lemma try_block_cases c file s0 :
  match transaction fault c file s0 with
  | (Raise e, s) => try_block fault c file s0 = (Raise e, s)
  | (Return pm, s) =>
      if fault (calls s) then
        try_block fault c file s0 = (Raise DatabaseError, tick s)
      else if fault (S (calls s)) then
        try_block fault c file s0 = (Raise DatabaseError, tick (tick (committing s)))
      else
        try_block fault c file s0 = (Return pm, tick (tick (committing s)))
  end.
Proof.
  unfold try_block. rewrite bind_unfold.
  destruct (transaction fault c file s0) as [[pm|e] s]; [| done].
  cbv beta. rewrite bind_unfold. unfold commit, execute_count, db_call.
  destruct (fault (calls s)) eqn:E1; [done |].
  rewrite bind_unfold. simpl.
  by destruct (fault (S (calls s))).
Qed.

(** A run either commits nothing, and the table is as it was, or commits
    the table of a transaction that ran to its end. *)
Lemma import_accounts_cases db file c :
  let o := import_accounts fault db file c in
  (committed_run o = false ∧ exit_status o = 1 ∧ raised o ≠ None ∧
   accounts (database o) = accounts db ∧
   (raised o = Some DatabaseError → rolled_back o = negb (fault 0%nat)))
  ∨
  (committed_run o = true ∧
   ∃ pm s, transaction fault c file (open db) = (Return pm, s) ∧
           database o = {| accounts := working s; id_seq := next_id s |} ∧
           (exit_status o = 0 ∧ raised o = None ∨
            exit_status o = 1 ∧ raised o = Some DatabaseError)).
Proof.
  intros o. subst o. unfold import_accounts.
  pose proof (keeps_transaction fault c file (open db)) as (Hc & Hn & _).
  pose proof (transaction_conn c file db) as Hconn.
  pose proof (try_block_cases c file (open db)) as Htry.
  destruct (transaction fault c file (open db)) as [[pm|e] s] eqn:Htx; simpl in Hc, Hn, Hconn.
  - destruct (fault (calls s)).
    + rewrite Htry. left. simpl. rewrite Hn, Hconn. simpl.
      repeat split; try done. by destruct (negb (fault 0%nat)).
    + right. destruct (fault (S (calls s))); rewrite Htry; simpl.
      * split; [done |]. exists pm, s. split; [done |]. split; [| auto].
        by destruct (conn s).
      * split; [done |]. exists pm, s. auto.
  - rewrite Htry. left. destruct e; simpl; rewrite Hn; simpl.
    + rewrite Hconn. repeat split; try done. by destruct (negb (fault 0%nat)).
    + repeat split; done.
Qed.

End Run.

(** ** Runs that meet no failure *)

Section NoFault.
Context {U : UnicodeData} (fault : nat → bool).


Lemma faultless_db_call {A} (op : Session → A * Session) :
  faultless (db_call fault op) (db_call no_fault op).
Proof.
  intros s a s' H. apply db_call_Return in H as (_ & -> & ->).
  unfold db_call, no_fault. by destruct (op s).
Qed.

Lemma faultless_bind {A B} (m m' : M A) (f f' : A → M B) :
  faultless m m' → (∀ a, faultless (f a) (f' a)) → faultless (m ≫= f) (m' ≫= f').
Proof.
  intros Hm Hf s b s' H. apply bind_Return in H as (a & s1 & H1 & H2).
  eapply bind_Return_intro; [by apply Hm | by apply Hf].
Qed.

Lemma faultless_refl {A} (m : M A) : faultless m m.
Proof. by intros s a s'. Qed.

Lemma faultless_select code c :
  faultless (execute_select_id fault code c) (execute_select_id no_fault code c).
Proof.
  apply faultless_bind; [apply faultless_refl | intros _]. apply faultless_db_call.
Qed.

Lemma faultless_insert values :
  faultless (execute_insert fault values) (execute_insert no_fault values).
Proof.
  intros s. unfold execute_insert. cbv zeta.
  apply (faultless_bind (adapt _) (adapt _) (λ _, db_call fault _) (λ _, db_call no_fault _));
    [apply faultless_refl | intros _]. apply faultless_db_call.
Qed.

Lemma faultless_synthetic_step c pm r :
  faultless (synthetic_step fault c pm r) (synthetic_step no_fault c pm r).
Proof.
  unfold synthetic_step.
  do 4 (apply faultless_bind; [apply faultless_refl | intros ?]).
  apply faultless_bind; [apply faultless_select | intros [i|]].
  - apply faultless_refl.
  - apply faultless_bind; [apply faultless_insert | intros ?; apply faultless_refl].
Qed.

Lemma faultless_synthetic_pass c rows : ∀ pm,
  faultless (synthetic_pass fault c pm rows) (synthetic_pass no_fault c pm rows).
Proof.
  induction rows as [|r rows IH]; intros pm; simpl; [apply faultless_refl |].
  apply faultless_bind; [apply faultless_synthetic_step | auto].
Qed.

Lemma faultless_analytical_step c pm r :
  faultless (analytical_step fault c pm r) (analytical_step no_fault c pm r).
Proof.
  unfold analytical_step.
  do 4 (apply faultless_bind; [apply faultless_refl | intros ?]).
  apply faultless_bind; [apply faultless_select | intros [i|]].
  - apply faultless_refl.
  - apply faultless_bind; [apply faultless_insert | intros ?; apply faultless_refl].
Qed.

Lemma faultless_analytical_pass c pm rows :
  faultless (analytical_pass fault c pm rows) (analytical_pass no_fault c pm rows).
Proof.
  induction rows as [|r rows IH]; simpl; [apply faultless_refl |].
  apply faultless_bind; [apply faultless_analytical_step | auto].
Qed.

Lemma faultless_transaction c file :
  faultless (transaction fault c file) (transaction no_fault c file).
Proof.
  unfold transaction.
  apply faultless_bind; [apply faultless_db_call | intros _].
  apply faultless_bind; [apply faultless_db_call | intros _].
  apply faultless_bind; [apply faultless_synthetic_pass | intros pm].
  apply faultless_bind; [apply faultless_analytical_pass | intros _].
  apply faultless_refl.
Qed.

(** The run without failures ends with status 0 once its transaction
    returns, and commits the transaction's table. *)
Lemma import_accounts_no_fault db file c pm s :
  transaction no_fault c file (open db) = (Return pm, s) →
  exit_status (import_accounts no_fault db file c) = 0 ∧
  database (import_accounts no_fault db file c) =
    {| accounts := working s; id_seq := next_id s |}.
Proof.
  intros Htx. unfold import_accounts.
  pose proof (try_block_cases no_fault c file (open db)) as Htry.
  rewrite Htx in Htry. simpl in Htry. by rewrite Htry.
Qed.

End NoFault.

(** ** The purge *)

Lemma elem_of_purge c table a :
  a ∈ purge c table ↔
  a ∈ table ∧ ¬ (Account.company_id a = c ∧ Account.code a ∉ seed_codes).
Proof. unfold purge. rewrite list_elem_of_filter. tauto. Qed.

Lemma purge_app c t1 t2 : purge c (t1 ++ t2) = purge c t1 ++ purge c t2.
Proof. apply filter_app. Qed.

Lemma purge_idemp c table : purge c (purge c table) = purge c table.
Proof.
  unfold purge. induction table as [|a table IH]; [done |].
  rewrite filter_cons. destruct (decide _) as [H|H]; [| done].
  rewrite filter_cons, decide_True by done. by f_equal.
Qed.

Lemma purge_company c new :
  Forall (λ a, Account.company_id a = c) new →
  purge c new = filter (λ a, Account.code a ∈ seed_codes) new.
Proof.
  unfold purge. induction 1 as [|a new Ha _ IH]; [done |].
  rewrite !filter_cons, IH.
  destruct (decide (Account.code a ∈ seed_codes)).
  - rewrite decide_True; [done | tauto].
  - rewrite decide_False; [done | tauto].
Qed.

Lemma purge_other_companies c table :
  filter (λ a, Account.company_id a ≠ c) (purge c table) =
  filter (λ a, Account.company_id a ≠ c) table.
Proof.
  unfold purge. induction table as [|a table IH]; [done |].
  rewrite !filter_cons. destruct (decide (Account.company_id a ≠ c)) as [Hc|Hc].
  - rewrite decide_True by tauto. rewrite filter_cons, decide_True by done. by f_equal.
  - destruct (decide _); [| done]. by rewrite filter_cons, decide_False.
Qed.

Lemma filter_none {A} (P : A → Prop) `{!∀ x, Decision (P x)} (l : list A) :
  Forall (λ x, ¬ P x) l → filter P l = [].
Proof.
  induction 1 as [|x l Hx _ IH]; [done |]. by rewrite filter_cons, decide_False.
Qed.

Lemma unique_codes_purge c table : unique_codes c table → unique_codes c (purge c table).
Proof.
  unfold unique_codes, codes_of, purge. induction table as [|a table IH]; [done |].
  rewrite !filter_cons. destruct (decide (Account.company_id a = c)) as [Hc|Hc].
  - rewrite fmap_cons, NoDup_cons. intros [Hnotin Hnd].
    destruct (decide _); [| auto].
    rewrite filter_cons, decide_True, fmap_cons by done.
    apply NoDup_cons. split; [| auto].
    intros Hin. apply Hnotin. apply list_elem_of_fmap in Hin as (b & -> & Hb).
    apply list_elem_of_fmap. exists b. split; [done |].
    apply list_elem_of_filter in Hb as [? Hb]. apply list_elem_of_filter in Hb as [? Hb].
    by apply list_elem_of_filter.
  - intros Hnd. rewrite decide_True by tauto. rewrite filter_cons, decide_False by done. auto.
Qed.

(** ** What a committed table looks like *)

Section Committed.
Context {U : UnicodeData} (fault : nat → bool).

Lemma import_accounts_success db file c :
  exit_status (import_accounts fault db file c) = 0 →
  ∃ pm s, transaction fault c file (open db) = (Return pm, s) ∧
          (try_block fault c file (open db)).1 = Return pm ∧
          database (import_accounts fault db file c) =
            {| accounts := working s; id_seq := next_id s |}.
Proof.
  unfold import_accounts.
  pose proof (try_block_cases fault c file (open db)) as Htry.
  destruct (transaction fault c file (open db)) as [[pm|e] s].
  - destruct (fault (calls s)); [by rewrite Htry |].
    destruct (fault (S (calls s))); rewrite Htry; [done |].
    intros _. by exists pm, s.
  - rewrite Htry. by destruct e.
Qed.

(** The table of a run, whatever its end: the old one, or the purged one
    followed by one new account of the company per inserted code. *)
Lemma import_accounts_table db file c :
  let table := accounts (database (import_accounts fault db file c)) in
  table = accounts db ∨
  ∃ new,
    table = purge c (accounts db) ++ new ∧
    Forall (λ a, Account.company_id a = c) new ∧
    Account.code <$> new =
      inserted_codes (codes_of c (purge c (accounts db)))
        (codes_in (synthetic_accounts file) ++ codes_in (analytical_accounts file)).
Proof.
  destruct (import_accounts_cases fault db file c) as [(_ & _ & _ & H & _)|(_ & pm & s & Htx & Hdb & _)];
    [by left |].
  right. apply transaction_table in Htx as (new & Hw & Hall & Hcodes).
  exists new. simpl. rewrite Hdb. simpl. split; [done |]. split; [| done].
  eapply Forall_impl; [exact Hall |]. naive_solver.
Qed.

(** The table of a run by its commit: without one, the old table; with
    one, the purged table followed by the accounts the run inserted, all
    of the company and under identifiers that the sequence handed out
    during the run. *)
Lemma import_accounts_committed_table db file c :
  (committed_run (import_accounts fault db file c) = false →
   accounts (database (import_accounts fault db file c)) = accounts db) ∧
  (committed_run (import_accounts fault db file c) = true →
   ∃ new,
     accounts (database (import_accounts fault db file c)) = purge c (accounts db) ++ new ∧
     Forall (λ a, Account.company_id a = c ∧
                  id_seq db ≤ Account.id a < id_seq (database (import_accounts fault db file c)))
            new).
Proof.
  destruct (import_accounts_cases fault db file c)
    as [(Hcr & _ & _ & H & _)|(Hcr & pm & s & Htx & Hdb & _)].
  - split; [done | congruence].
  - split; [congruence |]. intros _.
    apply transaction_table in Htx as (new & Hw & Hall & _).
    exists new. rewrite Hdb. simpl. done.
Qed.

(** The parent map of a transaction that ran to its end: on the codes of
    the synthetic rows it agrees with the lookup in the table, and it
    holds nothing else. *)
Lemma transaction_parent_map db file c pm s :
  transaction fault c file (open db) = (Return pm, s) →
  (∀ p, p ∈ codes_in (synthetic_accounts file) →
        ∃ pid, pm !! p = Some pid ∧ select_id p c (working s) = Some pid ∧
               (positive_ids db → 0 < pid)) ∧
  (∀ p, p ∉ codes_in (synthetic_accounts file) → pm !! p = None).
Proof.
  intros Htx. apply transaction_Return in Htx as (s1 & s2 & Hw1 & Hn1 & Hsyn & Hana).
  apply synthetic_pass_Return in Hsyn as (_ & Hrun1 & _ & Hin & Hout).
  apply analytical_pass_Return in Hana as (_ & Hrun2 & _).
  split; [| intros p Hp; by rewrite (Hout p Hp)].
  intros p Hp. destruct (Hin p Hp) as [[pid Hpid] Hsel]. exists pid.
  split; [done |]. rewrite Hpid in Hsel. symmetry in Hsel.
  split; [by eapply run_of_select |].
  intros [Hseq Hids]. apply select_id_Some in Hsel as (a & Ha & _ & _ & <-).
  destruct Hrun1 as (new & Hw2 & Hall & _). rewrite Hw2, Hw1 in Ha.
  apply elem_of_app in Ha as [Ha|Ha].
  - apply elem_of_purge in Ha as [Ha _]. simpl in Ha.
    by apply (proj1 (Forall_forall _ _) Hids).
  - apply (proj1 (Forall_forall _ _) Hall) in Ha. simpl in *. lia.
Qed.

(** The account of a synthetic row whose code is new when its turn
    comes. *)
Lemma synthetic_row_account db file c pre r post x pm s :
  transaction fault c file (open db) = (Return pm, s) →
  synthetic_accounts file = pre ++ r :: post →
  code_of r = Some x →
  x ∉ codes_of c (purge c (accounts db)) → x ∉ codes_in pre →
  ∃ name ty cls vat dir i,
    strip <$> Име_на_сметка r = Some name ∧
    synthetic_values x name ty cls vat dir c i ∈ working s ∧
    pm !! x = Some i ∧ id_seq db ≤ i.
Proof.
  intros Htx Hsplit Hx Hfree Hpre.
  apply transaction_Return in Htx as (s1 & s2 & Hw1 & Hn1 & Hsyn & Hana).
  rewrite Hsplit in Hsyn. simpl in Hw1, Hn1. rewrite <-Hw1 in Hfree.
  destruct (synthetic_pass_row _ _ _ _ _ _ _ _ _ _ Hsyn Hx Hfree Hpre)
    as (name & ty & cls & vat & dir & i & Hname & Hin & Hpm & Hi).
  apply analytical_pass_Return in Hana as (_ & Hrun2 & _).
  exists name, ty, cls, vat, dir, i. split; [done |].
  split; [by eapply run_of_incl |]. split; [done | lia].
Qed.

(** The account of an analytical row whose code is new when its turn
    comes. *)
Lemma analytical_row_account db file c pre r post x pm s :
  transaction fault c file (open db) = (Return pm, s) →
  analytical_accounts file = pre ++ r :: post →
  code_of r = Some x →
  x ∉ codes_of c (purge c (accounts db)) →
  x ∉ codes_in (synthetic_accounts file) → x ∉ codes_in pre →
  ∃ name ty cls vat dir i,
    strip <$> Име_на_сметка r = Some name ∧
    let parent_id := find_parent pm (parent_code_of r) in
    analytical_values x name ty cls parent_id (level_of parent_id) vat dir c i ∈ working s.
Proof.
  intros Htx Hsplit Hx Hfree Hsynth Hpre.
  apply transaction_Return in Htx as (s1 & s2 & Hw1 & Hn1 & Hsyn & Hana).
  rewrite Hsplit in Hana. simpl in Hw1. rewrite <-Hw1 in Hfree.
  apply synthetic_pass_Return in Hsyn as (_ & Hrun1 & _).
  eapply analytical_pass_row; [exact Hana | done | | done].
  rewrite (run_of_codes _ _ _ _ _ Hrun1). tauto.
Qed.

End Committed.

(** ** Counting *)

Lemma count_accounts_app c t1 t2 :
  count_accounts c (t1 ++ t2) = (count_accounts c t1 + count_accounts c t2)%nat.
Proof. unfold count_accounts. by rewrite filter_app, length_app. Qed.

Lemma count_accounts_company c new :
  Forall (λ a, Account.company_id a = c) new → count_accounts c new = length new.
Proof.
  unfold count_accounts. induction 1 as [|a new Ha _ IH]; [done |].
  rewrite filter_cons, decide_True by done. simpl. by f_equal.
Qed.

Lemma length_filter_seed (new : list Account.t) :
  (length (filter (λ a, Account.code a ∈ seed_codes) new) +
   length (filter (λ y, ¬ y ∈ seed_codes) (Account.code <$> new)))%nat = length new.
Proof.
  induction new as [|a new IH]; [done |].
  rewrite fmap_cons, !filter_cons.
  destruct (decide (Account.code a ∈ seed_codes)).
  - rewrite decide_False by tauto. simpl. lia.
  - rewrite decide_True by done. simpl. lia.
Qed.

Lemma elem_of_codes_filter_seed (new : list Account.t) y :
  y ∈ Account.code <$> filter (λ a, Account.code a ∈ seed_codes) new ↔
  y ∈ seed_codes ∧ y ∈ Account.code <$> new.
Proof.
  rewrite !list_elem_of_fmap. setoid_rewrite list_elem_of_filter. naive_solver.
Qed.

(** * The claims *)

Section Claims.
Context {U : UnicodeData}.

(** C1.  In a run that ends with status 0, take an analytical row [r]
    whose code [x] is new when its turn comes (not in the purged table,
    not the code of a synthetic row, not the code of an earlier
    analytical row), so that the row is inserted, and whose parent field
    holds a code [p] (not empty once stripped) that is the code of a
    synthetic row of the file.  Then the committed table holds the
    account of [r] with [parent_id] the identifier [pid] under which the
    company's account of code [p] is found, which is also what the parent
    map holds for [p], and with [level = 2].  Identifiers are taken
    positive, as a sequence hands them out: the level comes from a truth
    test on [parent_id], which a parent of identifier 0 would fail. *)
Theorem analytical_parent_resolved fault db file c pre r post x p :
  exit_status (import_accounts fault db file c) = 0 →
  positive_ids db →
  analytical_accounts file = pre ++ r :: post →
  code_of r = Some x →
  x ∉ codes_of c (purge c (accounts db)) ++ codes_in (synthetic_accounts file) ++ codes_in pre →
  parent_code_of r = Some p → p ≠ [] →
  p ∈ codes_in (synthetic_accounts file) →
  ∃ a pid pm,
    a ∈ accounts (database (import_accounts fault db file c)) ∧
    Account.code a = x ∧ Account.company_id a = c ∧
    strip <$> Име_на_сметка r = Some (Account.name a) ∧
    Account.is_analytical a = true ∧
    select_id p c (accounts (database (import_accounts fault db file c))) = Some pid ∧
    (try_block fault c file (open db)).1 = Return pm ∧ pm !! p = Some pid ∧
    Account.parent_id a = Some pid ∧ Account.level a = 2.
Proof.
  intros Hexit Hpos Hsplit Hx Hfree Hp Hpne Hpin.
  destruct (import_accounts_success fault db file c Hexit) as (pm & s & Htx & Htry & ->).
  simpl. rewrite !elem_of_app in Hfree.
  destruct (analytical_row_account fault db file c pre r post x pm s)
    as (name & ty & cls & vat & dir & i & Hname & Hin); [tauto.. |].
  destruct (transaction_parent_map fault db file c pm s Htx) as [Hmap _].
  destruct (Hmap p Hpin) as (pid & Hpid & Hsel & Hpid0). specialize (Hpid0 Hpos).
  simpl in Hin. rewrite Hp in Hin. destruct p as [|ch p]; [done |]. simpl in Hin.
  rewrite Hpid in Hin. simpl in Hin. rewrite decide_False in Hin by lia.
  eexists _, pid, pm. split; [exact Hin |]. simpl. repeat split; done.
Qed.

(** C5.  In a run that ends with status 0, take a synthetic row [r] whose
    code [x] is not present for the company when its turn comes (not in
    the purged table, not the code of an earlier synthetic row).  Then
    the committed table holds an account with that code, the name of the
    row, [parent_id = NULL], [level = 1], [is_analytical = false] and
    [is_active = true], under an identifier taken off the sequence, and
    the parent map holds that identifier for [x]. *)
Theorem synthetic_row_inserted fault db file c pre r post x :
  exit_status (import_accounts fault db file c) = 0 →
  synthetic_accounts file = pre ++ r :: post →
  code_of r = Some x →
  x ∉ codes_of c (purge c (accounts db)) ++ codes_in pre →
  ∃ a pm,
    a ∈ accounts (database (import_accounts fault db file c)) ∧
    Account.code a = x ∧ Account.company_id a = c ∧
    strip <$> Име_на_сметка r = Some (Account.name a) ∧
    Account.parent_id a = None ∧ Account.level a = 1 ∧
    Account.is_analytical a = false ∧ Account.is_active a = true ∧
    (try_block fault c file (open db)).1 = Return pm ∧
    pm !! x = Some (Account.id a) ∧ id_seq db ≤ Account.id a.
Proof.
  intros Hexit Hsplit Hx Hfree.
  destruct (import_accounts_success fault db file c Hexit) as (pm & s & Htx & Htry & ->).
  simpl. rewrite elem_of_app in Hfree.
  destruct (synthetic_row_account fault db file c pre r post x pm s)
    as (name & ty & cls & vat & dir & i & Hname & Hin & Hpm & Hi); [tauto.. |].
  eexists _, pm. split; [exact Hin |]. simpl. repeat split; done.
Qed.

(** C6.  In a run that ends with status 0, take an analytical row [r]
    whose code [x] is new when its turn comes, so that the row is
    inserted, and whose parent code is absent (no field, or nothing left
    once stripped) or is not the code of any synthetic row of the file.
    Then the committed table holds the account of [r] with
    [parent_id = NULL], [level = 1] and [is_analytical = true]. *)
Theorem analytical_without_parent fault db file c pre r post x :
  exit_status (import_accounts fault db file c) = 0 →
  analytical_accounts file = pre ++ r :: post →
  code_of r = Some x →
  x ∉ codes_of c (purge c (accounts db)) ++ codes_in (synthetic_accounts file) ++ codes_in pre →
  (∀ p, parent_code_of r = Some p → p = [] ∨ p ∉ codes_in (synthetic_accounts file)) →
  ∃ a,
    a ∈ accounts (database (import_accounts fault db file c)) ∧
    Account.code a = x ∧ Account.company_id a = c ∧
    strip <$> Име_на_сметка r = Some (Account.name a) ∧
    Account.is_analytical a = true ∧
    Account.parent_id a = None ∧ Account.level a = 1.
Proof.
  intros Hexit Hsplit Hx Hfree Hparent.
  destruct (import_accounts_success fault db file c Hexit) as (pm & s & Htx & Htry & ->).
  simpl. rewrite !elem_of_app in Hfree.
  destruct (analytical_row_account fault db file c pre r post x pm s)
    as (name & ty & cls & vat & dir & i & Hname & Hin); [tauto.. |].
  destruct (transaction_parent_map fault db file c pm s Htx) as [_ Hmap].
  assert (find_parent pm (parent_code_of r) = None) as Hnone.
  { destruct (parent_code_of r) as [[|ch p]|] eqn:Hp; [done | | done].
    simpl. apply Hmap. by destruct (Hparent _ eq_refl). }
  simpl in Hin. rewrite Hnone in Hin.
  eexists. split; [exact Hin |]. simpl. repeat split; done.
Qed.

(** C2 (as amended).  When a run ends on a database error, the exit
    status is 1.  If [conn.commit()] had not returned, the committed
    table is the one from before the run, purge and inserts undone, and
    [conn.rollback()] was called unless it was [connect] that failed.  If
    the commit had returned (the error is the final count's), the run
    leaves exactly what the run without failures leaves: the whole
    import, never part of it. *)
Theorem database_error_rolls_back fault db file c :
  raised (import_accounts fault db file c) = Some DatabaseError →
  exit_status (import_accounts fault db file c) = 1 ∧
  (committed_run (import_accounts fault db file c) = false →
   accounts (database (import_accounts fault db file c)) = accounts db ∧
   rolled_back (import_accounts fault db file c) = negb (fault 0%nat)) ∧
  (committed_run (import_accounts fault db file c) = true →
   database (import_accounts fault db file c) =
     database (import_accounts no_fault db file c) ∧
   exit_status (import_accounts no_fault db file c) = 0).
Proof.
  intros Hraised.
  destruct (import_accounts_cases fault db file c)
    as [(Hcr & Hexit & _ & Hacc & Hrb)|(Hcr & pm & s & Htx & Hdb & Hend)].
  - split; [done |]. rewrite Hcr. split; [auto | done].
  - rewrite Hcr. split; [| split; [done |]].
    + destruct Hend as [[_ Hr]|[He _]]; [congruence | done].
    + intros _. apply faultless_transaction in Htx.
      destruct (import_accounts_no_fault db file c pm s Htx) as [He Hd].
      by rewrite Hdb, Hd.
Qed.

(** C3 (as amended).  An account of the company that is in the table
    before the run and bears a seed code is in the table after the run,
    whatever the end of the run, with every column as it was; and the run
    adds no other account of the company under its code.  The accounts of
    the company with any other code are deleted by the purge of a
    committed run: its table is the purged table, which holds none of
    them, followed by the accounts the run inserted, which bear
    identifiers the sequence handed out during the run; so such an
    account from before the run is not in the table after it, unless it
    bore an identifier the sequence had yet to hand out. *)
Theorem seed_accounts_untouched fault db file c :
  (∀ a, a ∈ accounts db → Account.company_id a = c → Account.code a ∈ seed_codes →
        a ∈ accounts (database (import_accounts fault db file c)) ∧
        ∀ b, b ∈ accounts (database (import_accounts fault db file c)) →
             Account.company_id b = c → Account.code b = Account.code a →
             b ∈ accounts db) ∧
  (committed_run (import_accounts fault db file c) = true →
   ∃ new,
     accounts (database (import_accounts fault db file c)) = purge c (accounts db) ++ new ∧
     Forall (λ b, Account.company_id b = c ∧ id_seq db ≤ Account.id b) new ∧
     ∀ a, a ∈ accounts db → Account.company_id a = c → Account.code a ∉ seed_codes →
          (a ∉ purge c (accounts db)) ∧
          (Account.id a < id_seq db →
           a ∉ accounts (database (import_accounts fault db file c)))).
Proof.
  split.
  - intros a Ha Hc Hseed.
    destruct (import_accounts_table fault db file c) as [->|(new & -> & Hall & Hcodes)];
      [done |].
    assert (a ∈ purge c (accounts db)) as Hpa by (apply elem_of_purge; tauto).
    split; [apply elem_of_app; auto |].
    intros b Hb Hbc Hba. apply elem_of_app in Hb as [Hb|Hb].
    + by apply elem_of_purge in Hb as [Hb _].
    + exfalso. assert (Account.code b ∈ Account.code <$> new) as Hin
        by (by apply list_elem_of_fmap_2).
      rewrite Hcodes in Hin. apply elem_of_inserted_codes in Hin as [_ Hin].
      apply Hin. apply elem_of_codes_of. exists a. by rewrite Hba.
  - intros Hcr.
    destruct (import_accounts_committed_table fault db file c) as [_ Hrun].
    destruct (Hrun Hcr) as (new & -> & Hall). exists new. split; [done |].
    split; [eapply Forall_impl; [exact Hall |]; naive_solver |].
    intros a Ha Hc Hseed.
    assert (a ∉ purge c (accounts db)) as Hpa.
    { intros Hin. apply elem_of_purge in Hin as [_ Hin]. tauto. }
    split; [done |]. intros Hid Hin. apply elem_of_app in Hin as [Hin|Hin]; [done |].
    apply (proj1 (Forall_forall _ _) Hall) in Hin. lia.
Qed.

(** C4.  The [DELETE] of the purge step leaves the transaction with the
    purged table, and the rows the purge removes are exactly the rows of
    the company whose code is not a seed code.  A run that commits, as
    every run with status 0 does, leaves the purged table of before the
    run, followed by the accounts it inserted, all of the company and
    under identifiers the sequence handed out during the run; a run that
    does not commit leaves the table as it was.  So, whatever the end of
    the run, an account of another company or with a seed code is still
    in the table, with every column as it was, and the accounts of the
    other companies are the same list as before. *)
Theorem purge_scope fault db file c :
  (∀ s s', execute_delete fault c s = (Return (), s') →
           working s' = purge c (working s) ∧ committed s' = committed s) ∧
  (∀ table a,
     a ∈ purge c table ↔
     a ∈ table ∧ ¬ (Account.company_id a = c ∧ Account.code a ∉ seed_codes)) ∧
  (∀ a, a ∈ accounts db →
        Account.company_id a ≠ c ∨ Account.code a ∈ seed_codes →
        a ∈ accounts (database (import_accounts fault db file c))) ∧
  filter (λ a, Account.company_id a ≠ c)
         (accounts (database (import_accounts fault db file c))) =
  filter (λ a, Account.company_id a ≠ c) (accounts db) ∧
  (exit_status (import_accounts fault db file c) = 0 →
   committed_run (import_accounts fault db file c) = true) ∧
  (committed_run (import_accounts fault db file c) = true →
   ∃ new,
     accounts (database (import_accounts fault db file c)) = purge c (accounts db) ++ new ∧
     Forall (λ a, Account.company_id a = c ∧
                  id_seq db ≤ Account.id a < id_seq (database (import_accounts fault db file c)))
            new) ∧
  (committed_run (import_accounts fault db file c) = false →
   accounts (database (import_accounts fault db file c)) = accounts db).
Proof.
  split; [intros s s' H; by apply db_call_Return in H as (_ & _ & ->) |].
  split; [intros table a; apply elem_of_purge |].
  destruct (import_accounts_committed_table fault db file c) as [Hnone Hrun].
  assert (exit_status (import_accounts fault db file c) = 0 →
          committed_run (import_accounts fault db file c) = true) as Hexit.
  { intros He.
    destruct (import_accounts_cases fault db file c) as [(_ & He' & _)|(Hcr & _)];
      [congruence | done]. }
  assert ((∀ a, a ∈ accounts db →
                Account.company_id a ≠ c ∨ Account.code a ∈ seed_codes →
                a ∈ accounts (database (import_accounts fault db file c))) ∧
          filter (λ a, Account.company_id a ≠ c)
                 (accounts (database (import_accounts fault db file c))) =
          filter (λ a, Account.company_id a ≠ c) (accounts db)) as [Hkeep Hothers].
  { destruct (import_accounts_table fault db file c) as [->|(new & -> & Hall & Hcodes)];
      [done |].
    split.
    - intros a Ha Hkeep. apply elem_of_app. left. apply elem_of_purge. tauto.
    - rewrite filter_app, purge_other_companies, (filter_none _ new);
        [by rewrite app_nil_r |].
      eapply Forall_impl; [exact Hall |]. naive_solver. }
  done.
Qed.

(** C7.  After a run that ended with status 0, a second run on the same
    file and company, whatever its end, leaves the company with as many
    accounts as the first run did. *)
Theorem rerun_keeps_row_count fault1 fault2 db file c :
  exit_status (import_accounts fault1 db file c) = 0 →
  count_accounts c
    (accounts (database
       (import_accounts fault2 (database (import_accounts fault1 db file c)) file c))) =
  count_accounts c (accounts (database (import_accounts fault1 db file c))).
Proof.
  intros Hexit.
  destruct (import_accounts_success fault1 db file c Hexit) as (pm1 & s1 & Htx1 & _ & Hdb1).
  apply transaction_table in Htx1 as (n1 & Hw1 & Hall1 & Hc1). simpl in Hw1, Hc1.
  assert (Forall (λ a, Account.company_id a = c) n1) as Hco1
    by (eapply Forall_impl; [exact Hall1 |]; naive_solver).
  destruct (import_accounts_table fault2 (database (import_accounts fault1 db file c)) file c)
    as [->|(n2 & -> & Hall2 & Hc2)]; [done |].
  rewrite Hdb1 in *. simpl in *. rewrite Hw1 in *.
  rewrite purge_app, purge_idemp, (purge_company c n1 Hco1) in *.
  rewrite !count_accounts_app.
  rewrite (count_accounts_company c n1 Hco1), (count_accounts_company c n2 Hall2).
  rewrite (count_accounts_company c (filter _ n1)).
  2:{ apply Forall_forall. intros a Ha. apply list_elem_of_filter in Ha as [_ Ha].
      by apply (proj1 (Forall_forall _ _) Hco1). }
  rewrite <-(length_filter_seed n1), <-Nat.add_assoc. f_equal. f_equal.
  rewrite <-(length_fmap Account.code n2), Hc2, Hc1. f_equal.
  apply (inserted_codes_filter (λ y, y ∈ seed_codes)).
  intros y. rewrite codes_of_app, elem_of_app.
  rewrite (codes_of_company c (filter _ n1)).
  2:{ apply Forall_forall. intros a Ha. apply list_elem_of_filter in Ha as [_ Ha].
      by apply (proj1 (Forall_forall _ _) Hco1). }
  rewrite elem_of_codes_filter_seed, Hc1, elem_of_inserted_codes.
  destruct (decide (y ∈ codes_of c (purge c (accounts db)))); tauto.
Qed.

(** C8.  After a run that ends with status 0, codes are unique within the
    company, provided the accounts of the company that the purge spares
    had distinct codes (as they have when codes were unique before the
    run): no insert repeats a code of the table or of an earlier row of
    the file. *)
Theorem codes_stay_unique fault db file c :
  exit_status (import_accounts fault db file c) = 0 →
  unique_codes c (purge c (accounts db)) →
  unique_codes c (accounts (database (import_accounts fault db file c))).
Proof.
  intros Hexit Huniq.
  destruct (import_accounts_success fault db file c Hexit) as (pm & s & Htx & _ & ->).
  apply transaction_table in Htx as (new & Hw & Hall & Hcodes). simpl in *.
  unfold unique_codes. rewrite Hw, codes_of_app.
  rewrite (codes_of_company c new), Hcodes.
  2:{ eapply Forall_impl; [exact Hall |]. naive_solver. }
  apply NoDup_app. split; [done |]. split; [| apply NoDup_inserted_codes].
  intros y Hy Hin. by apply elem_of_inserted_codes in Hin as [_ Hin].
Qed.

(** C9 (as amended).  The class of the empty code is 1; so is the class
    of a code whose first character is no digit, any other ASCII
    character for one.  When the first character is a decimal digit the
    class is its value, which for the ASCII digits is the digit itself;
    4 for the code 4111.  A class, when the function returns one, lies in
    0..9. *)
Theorem account_class_range (code : str) :
  get_account_class [] = Return 1 ∧
  get_account_class (lit "4111") = Return 4 ∧
  (∀ ch rest, code = ch :: rest → isdigit ch = false →
              get_account_class code = Return 1) ∧
  (∀ ch rest d, code = ch :: rest → decimal ch = Some d →
                get_account_class code = Return d) ∧
  (∀ ch rest, code = ch :: rest → 48 ≤ ch ≤ 57 →
              get_account_class code = Return (ch - 48)) ∧
  (∀ ch rest, code = ch :: rest → 0 ≤ ch < 128 → ¬ 48 ≤ ch ≤ 57 →
              get_account_class code = Return 1) ∧
  (∀ n, get_account_class code = Return n → 0 ≤ n ≤ 9).
Proof.
  assert (∀ ch rest d, decimal ch = Some d → get_account_class (ch :: rest) = Return d) as Hdec.
  { intros ch rest d Hd. unfold get_account_class, int.
    by rewrite (decimal_isdigit _ _ Hd), Hd. }
  split; [done |]. split; [apply Hdec; by apply decimal_ascii |].
  split; [intros ch rest -> Hnd; unfold get_account_class; by rewrite Hnd |].
  split; [intros ch rest d ->; apply Hdec |].
  split; [intros ch rest -> Hch; apply Hdec; by apply decimal_ascii |].
  split.
  { intros ch rest -> Hch Hnd. unfold get_account_class.
    destruct (isdigit ch) eqn:Hd; [| done]. by apply isdigit_ascii in Hd. }
  intros n. unfold get_account_class, int.
  destruct code as [|ch rest]; [intros [= <-]; lia |].
  destruct (isdigit ch); [| intros [= <-]; lia].
  destruct (decimal ch) as [d|] eqn:Hd; [| done].
  intros [= <-]. by eapply decimal_range.
Qed.

(** C10.  A row whose record type is neither of the two literals is in
    neither list of rows; with or without it the [try] block ends the
    same way, with the same parent map and the same connection state, and
    the run leaves the same outcome. *)
Theorem other_record_types_ignored fault c pre r post :
  Тип_сметка r ≠ Some СИНТЕТИЧНА → Тип_сметка r ≠ Some АНАЛИТИЧНА →
  synthetic_accounts (pre ++ r :: post) = synthetic_accounts (pre ++ post) ∧
  analytical_accounts (pre ++ r :: post) = analytical_accounts (pre ++ post) ∧
  (∀ s, try_block fault c (pre ++ r :: post) s = try_block fault c (pre ++ post) s) ∧
  (∀ db, import_accounts fault db (pre ++ r :: post) c =
         import_accounts fault db (pre ++ post) c).
Proof.
  intros Hs Ha.
  assert (synthetic_accounts (pre ++ r :: post) = synthetic_accounts (pre ++ post)) as Es.
  { unfold synthetic_accounts. by rewrite !filter_app, filter_cons, decide_False. }
  assert (analytical_accounts (pre ++ r :: post) = analytical_accounts (pre ++ post)) as Ea.
  { unfold analytical_accounts. by rewrite !filter_app, filter_cons, decide_False. }
  assert (∀ s, try_block fault c (pre ++ r :: post) s = try_block fault c (pre ++ post) s) as Et.
  { intros s. unfold try_block, transaction. by rewrite Es, Ea. }
  repeat split; try done.
  intros db. unfold import_accounts. by rewrite Et.
Qed.

End Claims.

(** * The claims at work on a small chart *)

Lemma analytical_parent_resolved_witness :
  ∃ a pid pm,
    a ∈ accounts (database (import_accounts (U := ascii_only) no_fault example_db example_file 1)) ∧
    Account.code a = lit "4111" ∧ Account.company_id a = 1 ∧
    strip (U := ascii_only) <$> Име_на_сметка row_4111 = Some (Account.name a) ∧
    Account.is_analytical a = true ∧
    select_id (lit "41") 1
      (accounts (database (import_accounts (U := ascii_only) no_fault example_db example_file 1)))
      = Some pid ∧
    (try_block (U := ascii_only) no_fault 1 example_file (open example_db)).1 = Return pm ∧
    pm !! lit "41" = Some pid ∧
    Account.parent_id a = Some pid ∧ Account.level a = 2.
Proof.
  apply (analytical_parent_resolved (U := ascii_only) no_fault example_db example_file 1
           [] row_4111 [row_4112] (lit "4111") (lit "41")).
  - vm_compute. reflexivity.
  - split; [reflexivity |]. repeat constructor.
  - vm_compute. reflexivity.
  - vm_compute. reflexivity.
  - compute_done.
  - vm_compute. reflexivity.
  - discriminate.
  - compute_done.
Defined.

Lemma synthetic_row_inserted_witness :
  ∃ a pm,
    a ∈ accounts (database (import_accounts (U := ascii_only) no_fault example_db example_file 1)) ∧
    Account.code a = lit "41" ∧ Account.company_id a = 1 ∧
    strip (U := ascii_only) <$> Име_на_сметка row_41 = Some (Account.name a) ∧
    Account.parent_id a = None ∧ Account.level a = 1 ∧
    Account.is_analytical a = false ∧ Account.is_active a = true ∧
    (try_block (U := ascii_only) no_fault 1 example_file (open example_db)).1 = Return pm ∧
    pm !! lit "41" = Some (Account.id a) ∧ id_seq example_db ≤ Account.id a.
Proof.
  apply (synthetic_row_inserted (U := ascii_only) no_fault example_db example_file 1
           [] row_41 [] (lit "41")).
  - vm_compute. reflexivity.
  - vm_compute. reflexivity.
  - vm_compute. reflexivity.
  - compute_done.
Defined.

Lemma analytical_without_parent_witness :
  ∃ a,
    a ∈ accounts (database (import_accounts (U := ascii_only) no_fault example_db example_file 1)) ∧
    Account.code a = lit "4112" ∧ Account.company_id a = 1 ∧
    strip (U := ascii_only) <$> Име_на_сметка row_4112 = Some (Account.name a) ∧
    Account.is_analytical a = true ∧
    Account.parent_id a = None ∧ Account.level a = 1.
Proof.
  apply (analytical_without_parent (U := ascii_only) no_fault example_db example_file 1
           [row_4111] row_4112 [] (lit "4112")).
  - vm_compute. reflexivity.
  - vm_compute. reflexivity.
  - vm_compute. reflexivity.
  - compute_done.
  - intros p [= <-]. right. compute_done.
Defined.

(** The import of the example fails on its first insert: all is rolled
    back. *)
Lemma database_error_rolls_back_witness :
  exit_status (import_accounts (U := ascii_only) (fault_at 3) example_db example_file 1) = 1 ∧
  accounts (database (import_accounts (U := ascii_only) (fault_at 3) example_db example_file 1))
    = accounts example_db.
Proof.
  destruct (database_error_rolls_back (U := ascii_only) (fault_at 3) example_db example_file 1)
    as (Hexit & Hbefore & _).
  - vm_compute. reflexivity.
  - split; [exact Hexit |]. apply Hbefore. vm_compute. reflexivity.
Defined.

(** C2, as stated, fails: the final count raises after the commit, the
    run ends on a database error with status 1, and the table is no
    longer the one from before the run. *)
Lemma database_error_after_commit :
  raised (import_accounts (U := ascii_only) (fault_at 9) example_db example_file 1)
    = Some DatabaseError ∧
  exit_status (import_accounts (U := ascii_only) (fault_at 9) example_db example_file 1) = 1 ∧
  accounts (database (import_accounts (U := ascii_only) (fault_at 9) example_db example_file 1))
    ≠ accounts example_db.
Proof.
  split; [vm_compute; reflexivity |]. split; [vm_compute; reflexivity |].
  vm_compute. discriminate.
Qed.

Lemma seed_accounts_untouched_witness :
  seed_101 ∈ accounts (database (import_accounts (U := ascii_only) no_fault example_db example_file 1)) ∧
  old_411 ∉ accounts (database (import_accounts (U := ascii_only) no_fault example_db example_file 1)).
Proof.
  destruct (seed_accounts_untouched (U := ascii_only) no_fault example_db example_file 1)
    as [Hseed Hpurged].
  split.
  - apply (Hseed seed_101); [compute_done | reflexivity | compute_done].
  - destruct Hpurged as (new & _ & _ & Hgone); [reflexivity |].
    apply (Hgone old_411); [compute_done | reflexivity | compute_done | reflexivity].
Defined.

(** C3, as stated, fails: an account of the company with a code that is
    no seed code is in the table before a run that ends with status 0,
    and not after it. *)
Lemma non_seed_account_deleted :
  old_411 ∈ accounts example_db ∧ Account.company_id old_411 = 1 ∧
  exit_status (import_accounts (U := ascii_only) no_fault example_db example_file 1) = 0 ∧
  old_411 ∉ accounts (database (import_accounts (U := ascii_only) no_fault example_db example_file 1)).
Proof.
  split; [compute_done |]. split; [reflexivity |]. split; [vm_compute; reflexivity |].
  compute_done.
Qed.

Lemma rerun_keeps_row_count_witness :
  count_accounts 1
    (accounts (database
       (import_accounts (U := ascii_only) no_fault
          (database (import_accounts (U := ascii_only) no_fault example_db example_file 1))
          example_file 1))) =
  count_accounts 1
    (accounts (database (import_accounts (U := ascii_only) no_fault example_db example_file 1))).
Proof.
  apply (rerun_keeps_row_count (U := ascii_only) no_fault no_fault example_db example_file 1).
  vm_compute. reflexivity.
Defined.

Lemma codes_stay_unique_witness :
  unique_codes 1
    (accounts (database (import_accounts (U := ascii_only) no_fault example_db example_file 1))).
Proof.
  apply (codes_stay_unique (U := ascii_only) no_fault example_db example_file 1).
  - vm_compute. reflexivity.
  - unfold unique_codes. compute_done.
Defined.

(** C9, as stated, fails: the class of a code that starts with the digit
    zero is 0, which is not in 1..9. *)
Lemma account_class_zero :
  ∃ n, get_account_class (U := ascii_only) (lit "0111") = Return n ∧ ¬ 1 ≤ n ≤ 9.
Proof. exists 0. split; [reflexivity | lia]. Qed.

Lemma other_record_types_ignored_witness :
  import_accounts (U := ascii_only) no_fault example_db example_file 1 =
  import_accounts (U := ascii_only) no_fault example_db [row_41; row_4111; row_4112] 1.
Proof.
  apply (other_record_types_ignored (U := ascii_only) no_fault 1
           [row_41] row_note [row_4111; row_4112]); discriminate.
Defined.

(** The example of the specification: a synthetic row for 41 and an
    analytical row for 4111 under 41 give two accounts, the second one
    under the first. *)
Example two_rows :
  (λ a, (Account.code a, Account.parent_id a, Account.level a)) <$>
    accounts (database (import_accounts (U := ascii_only) no_fault
                          {| accounts := []; id_seq := 7 |} [row_41; row_4111] 1)) =
  [(lit "41", None, 1); (lit "4111", Some 7, 2)].
Proof. reflexivity. Qed.

(** The script's test on [parent_id] is a truth test: a parent whose
    identifier is 0 is recorded, at level 1. *)
Example parent_with_identifier_zero :
  (λ a, (Account.code a, Account.parent_id a, Account.level a)) <$>
    accounts (database (import_accounts (U := ascii_only) no_fault
                          {| accounts := []; id_seq := 0 |} [row_41; row_4111] 1)) =
  [(lit "41", None, 1); (lit "4111", Some 0, 1)].
Proof. reflexivity. Qed.

(** * Further properties *)

(** ** The two parsers *)

(** X1.  [parse_account_type] reads each of the five names as its type,
    and anything else as ASSET: a result other than ASSET means the
    string was the name of that type. *)
Theorem parse_account_type_names :
  (∀ t, parse_account_type (account_type_name t) = t) ∧
  (∀ type_str t, parse_account_type type_str = t →
                 t = ASSET ∨ type_str = account_type_name t).
Proof.
  split; [by intros [] |].
  intros type_str t <-. unfold parse_account_type.
  repeat (destruct (decide _) as [->|]; [by (left + right) |]). by left.
Qed.

(** X2.  [parse_vat_direction] reads each of the four names as its
    direction, and anything else as NONE. *)
Theorem parse_vat_direction_names :
  (∀ d, parse_vat_direction (vat_direction_name d) = d) ∧
  (∀ direction_str d, parse_vat_direction direction_str = d →
                      d = NONE ∨ direction_str = vat_direction_name d).
Proof.
  split; [by intros [] |].
  intros direction_str d <-. unfold parse_vat_direction.
  repeat (destruct (decide _) as [->|]; [by (left + right) |]). by left.
Qed.

(** ** Stripping *)

Section Strip.
Context {U : UnicodeData}.

Lemma lstrip_split s :
  ∃ ws, s = ws ++ lstrip s ∧ Forall (λ c, isspace c = true) ws.
Proof.
  induction s as [|c s (ws & Hs & Hws)]; [by exists [] |]. simpl.
  destruct (isspace c) eqn:Hc.
  - exists (c :: ws). split; [by rewrite <-app_comm_cons, <-Hs | by constructor].
  - by exists [].
Qed.

Lemma lstrip_head s c rest : lstrip s = c :: rest → isspace c = false.
Proof.
  induction s as [|d s IH]; [done |]. simpl.
  destruct (isspace d) eqn:Hd; [done |]. by intros [= <- _].
Qed.

Lemma lstrip_id c rest : isspace c = false → lstrip (c :: rest) = c :: rest.
Proof. intros Hc. simpl. by rewrite Hc. Qed.

Lemma lstrip_idemp s : lstrip (lstrip s) = lstrip s.
Proof.
  destruct (lstrip s) as [|c rest] eqn:E; [done |].
  apply lstrip_id. by eapply lstrip_head.
Qed.

Lemma lstrip_spaces s : Forall (λ c, isspace c = true) s → lstrip s = [].
Proof. induction 1 as [|c s Hc _ IH]; [done |]. simpl. by rewrite Hc. Qed.

Lemma lstrip_snoc s c : isspace c = false → lstrip (s ++ [c]) = lstrip s ++ [c].
Proof.
  intros Hc. induction s as [|d s IH]; simpl; [by rewrite Hc |].
  by destruct (isspace d).
Qed.

Lemma rstrip_cons c rest :
  isspace c = false → rstrip (c :: rest) = c :: rstrip rest.
Proof.
  intros Hc. unfold rstrip. by rewrite reverse_cons, lstrip_snoc, reverse_snoc.
Qed.

Lemma rstrip_idemp s : rstrip (rstrip s) = rstrip s.
Proof. unfold rstrip. by rewrite reverse_involutive, lstrip_idemp. Qed.

Lemma rstrip_split s :
  ∃ ws, s = rstrip s ++ ws ∧ Forall (λ c, isspace c = true) ws.
Proof.
  destruct (lstrip_split (reverse s)) as (ws & Hs & Hws).
  exists (reverse ws). split; [| by apply Forall_reverse].
  unfold rstrip. by rewrite <-reverse_app, <-Hs, reverse_involutive.
Qed.

Lemma rstrip_last s init c : rstrip s = init ++ [c] → isspace c = false.
Proof.
  unfold rstrip. intros H. apply (f_equal reverse) in H.
  rewrite reverse_involutive, reverse_snoc in H. by eapply lstrip_head.
Qed.

Lemma strip_head s c rest : strip s = c :: rest → isspace c = false.
Proof.
  unfold strip. destruct (lstrip s) as [|d t] eqn:E; [done |].
  pose proof (lstrip_head _ _ _ E) as Hd. rewrite (rstrip_cons _ _ Hd).
  by intros [= <- _].
Qed.

Lemma strip_idemp s : strip (strip s) = strip s.
Proof.
  destruct (strip s) as [|c rest] eqn:E; [done |].
  unfold strip at 1. rewrite (lstrip_id _ _ (strip_head _ _ _ E)).
  rewrite <-E. unfold strip. apply rstrip_idemp.
Qed.

(** X4.  [strip] takes whitespace off the two ends and nothing else:
    the string is its stripped form between two runs of whitespace, the
    stripped form neither starts nor ends with whitespace, a string of
    whitespace strips to the empty string, and stripping twice is
    stripping once. *)
Theorem strip_ends (s : str) :
  (∃ l r, s = l ++ strip s ++ r ∧
          Forall (λ c, isspace c = true) l ∧ Forall (λ c, isspace c = true) r) ∧
  (∀ c rest, strip s = c :: rest → isspace c = false) ∧
  (∀ init c, strip s = init ++ [c] → isspace c = false) ∧
  (Forall (λ c, isspace c = true) s → strip s = []) ∧
  strip (strip s) = strip s.
Proof.
  split; [| split; [apply strip_head |]; split; [| split]].
  - destruct (lstrip_split s) as (l & Hl & Hls).
    destruct (rstrip_split (lstrip s)) as (r & Hr & Hrs).
    exists l, r. unfold strip. by rewrite <-Hr.
  - unfold strip. apply rstrip_last.
  - intros Hs. unfold strip. by rewrite (lstrip_spaces _ Hs).
  - apply strip_idemp.
Qed.

End Strip.

(** ** Reading a row *)

Section Reading.
Context {U : UnicodeData}.

Lemma get_account_class_Raise code e : get_account_class code = Raise e → e = OtherError.
Proof.
  unfold get_account_class, int. destruct code as [|ch rest]; [done |].
  destruct (isdigit ch); [| done]. destruct (decimal ch); [done |]. by intros [= <-].
Qed.

Lemma row_values_Raise r e : row_values r = Raise e → e = OtherError.
Proof.
  unfold row_values. destruct (Код r) as [raw|]; simpl; [| by intros [= <-]].
  destruct (Име_на_сметка r) as [nraw|]; simpl; [| by intros [= <-]].
  destruct (get_account_class (strip raw)) as [cls|e'] eqn:Hcls; simpl.
  - destruct (ДДС_приложимост r); simpl; [done | by intros [= <-]].
  - intros [= <-]. by eapply get_account_class_Raise.
Qed.

Lemma row_values_code r code name ty cls vat dir :
  row_values r = Return (code, name, ty, cls, vat, dir) →
  code_of r = Some code ∧ strip <$> Име_на_сметка r = Some name ∧
  get_account_class code = Return cls ∧
  ty = parse_account_type (strip_or (lit "ASSET") (Тип r)) ∧
  dir = parse_vat_direction (strip_or (lit "NONE") (ДДС_посока r)) ∧
  ∃ flag, ДДС_приложимост r = Some flag ∧ vat = bool_decide (strip flag = ДА).
Proof.
  unfold row_values, code_of. destruct (Код r) as [raw|]; simpl; [| done].
  destruct (Име_на_сметка r) as [nraw|]; simpl; [| done].
  destruct (get_account_class (strip raw)) as [cls'|e'] eqn:Hcls; simpl; [| done].
  destruct (ДДС_приложимост r) as [flag|]; simpl; [| done].
  intros [= <- <- <- <- <- <-]. eauto 10.
Qed.

Variable fault : nat → bool.

(** A row that cannot be read ends its iteration before any call. *)
Lemma synthetic_step_unreadable c pm r e s :
  row_values r = Raise e → synthetic_step fault c pm r s = (Raise OtherError, s).
Proof.
  intros H. pose proof (row_values_Raise _ _ H) as ->. revert H.
  unfold row_values, synthetic_step. rewrite !bind_unfold. unfold lift.
  destruct (Код r) as [raw|]; simpl; [| done].
  destruct (Име_на_сметка r) as [nraw|]; simpl; [| done].
  destruct (get_account_class (strip raw)) as [cls|e'] eqn:Hcls; simpl;
    [| by intros [= ->]].
  destruct (ДДС_приложимост r); simpl; done.
Qed.

Lemma analytical_step_unreadable c pm r e s :
  row_values r = Raise e → analytical_step fault c pm r s = (Raise OtherError, s).
Proof.
  intros H. pose proof (row_values_Raise _ _ H) as ->. revert H.
  unfold row_values, analytical_step. rewrite !bind_unfold. unfold lift.
  destruct (Код r) as [raw|]; simpl; [| done].
  destruct (Име_на_сметка r) as [nraw|]; simpl; [| done].
  destruct (get_account_class (strip raw)) as [cls|e'] eqn:Hcls; simpl;
    [| by intros [= ->]].
  destruct (ДДС_приложимост r); simpl; done.
Qed.

(** A row that can be read goes on to its lookup with the values read. *)
Lemma synthetic_step_readable c pm r code name ty cls vat dir s :
  row_values r = Return (code, name, ty, cls, vat, dir) →
  synthetic_step fault c pm r s =
  (existing ← execute_select_id fault code c;
   match existing with
   | Some existing_id => mret (<[code := existing_id]> pm)
   | None =>
       account_id ← execute_insert fault (synthetic_values code name ty cls vat dir c);
       mret (<[code := account_id]> pm)
   end) s.
Proof.
  unfold row_values, synthetic_step.
  destruct (Код r) as [raw|]; simpl; [| done].
  destruct (Име_на_сметка r) as [nraw|]; simpl; [| done].
  destruct (get_account_class (strip raw)) as [cls'|e'] eqn:Hcls; simpl; [| done].
  destruct (ДДС_приложимост r) as [flag|]; simpl; [| done].
  intros [= <- <- <- <- <- <-].
  rewrite (bind_unfold (lift _)). unfold lift at 1. simpl.
  rewrite (bind_unfold (lift _)). unfold lift at 1. simpl.
  rewrite (bind_unfold (lift _)). unfold lift at 1. rewrite Hcls.
  rewrite (bind_unfold (lift _)). unfold lift at 1. simpl. done.
Qed.

Lemma analytical_step_readable c pm r code name ty cls vat dir s :
  row_values r = Return (code, name, ty, cls, vat, dir) →
  analytical_step fault c pm r s =
  (existing ← execute_select_id fault code c;
   match existing with
   | Some _ => mret ()
   | None =>
       let parent_id := find_parent pm (parent_code_of r) in
       execute_insert fault
         (analytical_values code name ty cls parent_id (level_of parent_id) vat dir c);;
       mret ()
   end) s.
Proof.
  unfold row_values, analytical_step.
  destruct (Код r) as [raw|]; simpl; [| done].
  destruct (Име_на_сметка r) as [nraw|]; simpl; [| done].
  destruct (get_account_class (strip raw)) as [cls'|e'] eqn:Hcls; simpl; [| done].
  destruct (ДДС_приложимост r) as [flag|]; simpl; [| done].
  intros [= <- <- <- <- <- <-].
  rewrite (bind_unfold (lift _)). unfold lift at 1. simpl.
  rewrite (bind_unfold (lift _)). unfold lift at 1. simpl.
  rewrite (bind_unfold (lift _)). unfold lift at 1. rewrite Hcls.
  rewrite (bind_unfold (lift _)). unfold lift at 1. simpl. done.
Qed.

End Reading.

(** ** What the loops insert *)

Section Inserted.
Context {U : UnicodeData} (fault : nat → bool).

Lemma synthetic_step_exact c pm r s pm' s' :
  synthetic_step fault c pm r s = (Return pm', s') →
  readable r ∧
  ∃ code, code_of r = Some code ∧
    match select_id code c (working s) with
    | Some _ => working s' = working s ∧ next_id s' = next_id s
    | None =>
        ∃ a, synthetic_account c r (next_id s) = Some a ∧ Account.id a = next_id s ∧
             Account.code a = code ∧ Account.company_id a = c ∧
             working s' = working s ++ [a] ∧ next_id s' = next_id s + 1
    end.
Proof.
  intros H. destruct (row_values r) as [[[[[[code name] ty] cls] vat] dir]|e] eqn:Hr.
  2:{ by rewrite (synthetic_step_unreadable fault c pm r e s Hr) in H. }
  split; [by eexists |].
  rewrite (synthetic_step_readable fault c pm r _ _ _ _ _ _ s Hr) in H.
  exists code. split; [by apply row_values_code in Hr as [? _] |].
  called H ex. destruct (select_id code c (working s)) as [i|].
  - by apply ret_Return in H as [_ ->].
  - called H i. apply ret_Return in H as [_ ->].
    eexists. unfold synthetic_account. rewrite Hr. done.
Qed.

Lemma analytical_step_exact c pm r s s' :
  analytical_step fault c pm r s = (Return (), s') →
  readable r ∧
  ∃ code, code_of r = Some code ∧
    match select_id code c (working s) with
    | Some _ => working s' = working s ∧ next_id s' = next_id s
    | None =>
        ∃ a, analytical_account c pm r (next_id s) = Some a ∧ Account.id a = next_id s ∧
             Account.code a = code ∧ Account.company_id a = c ∧
             working s' = working s ++ [a] ∧ next_id s' = next_id s + 1
    end.
Proof.
  intros H. destruct (row_values r) as [[[[[[code name] ty] cls] vat] dir]|e] eqn:Hr.
  2:{ by rewrite (analytical_step_unreadable fault c pm r e s Hr) in H. }
  split; [by eexists |].
  rewrite (analytical_step_readable fault c pm r _ _ _ _ _ _ s Hr) in H.
  exists code. split; [by apply row_values_code in Hr as [? _] |].
  called H ex. destruct (select_id code c (working s)) as [i|].
  - by apply ret_Return in H as [_ ->].
  - called H i. apply ret_Return in H as [_ ->].
    eexists. unfold analytical_account. rewrite Hr. done.
Qed.

Lemma inserted_by_nil account_of s : inserted_by account_of [] s s [].
Proof.
  unfold inserted_by. rewrite app_nil_r. simpl. rewrite Z.add_0_r.
  by rewrite seqZ_nil.
Qed.

Lemma inserted_by_skip account_of r rows s s1 s' new :
  working s1 = working s → next_id s1 = next_id s →
  inserted_by account_of rows s1 s' new →
  inserted_by account_of (r :: rows) s s' new.
Proof.
  unfold inserted_by. intros -> -> (Hw & Hall & Hids & Hn).
  repeat split; try done.
  eapply Forall_impl; [exact Hall |]. intros a (r' & Hr' & Ha). exists r'.
  split; [by right | done].
Qed.

Lemma inserted_by_cons account_of r rows s s1 s' a new :
  account_of r (Account.id a) = Some a → Account.id a = next_id s →
  working s1 = working s ++ [a] → next_id s1 = next_id s + 1 →
  inserted_by account_of rows s1 s' new →
  inserted_by account_of (r :: rows) s s' (a :: new).
Proof.
  unfold inserted_by. intros Ha Hid -> -> (Hw & Hall & Hids & Hn).
  repeat split.
  - by rewrite Hw, <-app_assoc.
  - constructor; [exists r; split; [left | done] |].
    eapply Forall_impl; [exact Hall |]. intros b (r' & Hr' & Hb). exists r'.
    split; [by right | done].
  - rewrite fmap_cons, Hids, Hid, length_cons, (seqZ_cons (next_id s)) by lia.
    f_equal. f_equal; lia.
  - rewrite Hn, length_cons. lia.
Qed.

Lemma synthetic_pass_inserted c rows : ∀ pm s pm' s',
  synthetic_pass fault c pm rows s = (Return pm', s') →
  Forall readable rows ∧ ∃ new, inserted_by (synthetic_account c) rows s s' new.
Proof.
  induction rows as [|r rows IH]; intros pm s pm' s' H; simpl in H.
  - apply ret_Return in H as [_ ->]. split; [constructor |].
    exists []. apply inserted_by_nil.
  - apply bind_Return in H as (pm1 & s1 & Hstep & Hrest).
    apply synthetic_step_exact in Hstep as [Hr Hstep].
    apply IH in Hrest as (Hrows & new & Hnew). split; [by constructor |].
    destruct Hstep as (code & _ & Hstep).
    destruct (select_id code c (working s)) as [i|].
    + destruct Hstep as [Hw Hn]. exists new. by eapply inserted_by_skip.
    + destruct Hstep as (a & Ha & Hid & _ & _ & Hw & Hn).
      exists (a :: new). eapply inserted_by_cons; [| done..]. by rewrite Hid.
Qed.

Lemma analytical_pass_inserted c pm rows : ∀ s s',
  analytical_pass fault c pm rows s = (Return (), s') →
  Forall readable rows ∧ ∃ new, inserted_by (analytical_account c pm) rows s s' new.
Proof.
  induction rows as [|r rows IH]; intros s s' H; simpl in H.
  - apply ret_Return in H as [_ ->]. split; [constructor |].
    exists []. apply inserted_by_nil.
  - apply bind_Return in H as ([] & s1 & Hstep & Hrest).
    apply analytical_step_exact in Hstep as [Hr Hstep].
    apply IH in Hrest as (Hrows & new & Hnew). split; [by constructor |].
    destruct Hstep as (code & _ & Hstep).
    destruct (select_id code c (working s)) as [i|].
    + destruct Hstep as [Hw Hn]. exists new. by eapply inserted_by_skip.
    + destruct Hstep as (a & Ha & Hid & _ & _ & Hw & Hn).
      exists (a :: new). eapply inserted_by_cons; [| done..]. by rewrite Hid.
Qed.

(** The table of a transaction that ran to its end, row by row: the
    purged table, then the accounts of synthetic rows, then the accounts
    of analytical rows, the new ones under consecutive identifiers. *)
Lemma transaction_inserted db file c pm s :
  transaction fault c file (open db) = (Return pm, s) →
  Forall readable (synthetic_accounts file ++ analytical_accounts file) ∧
  ∃ new_s new_a,
    working s = purge c (accounts db) ++ new_s ++ new_a ∧
    Forall (λ a, ∃ r, r ∈ synthetic_accounts file ∧
                      synthetic_account c r (Account.id a) = Some a) new_s ∧
    Forall (λ a, ∃ r, r ∈ analytical_accounts file ∧
                      analytical_account c pm r (Account.id a) = Some a) new_a ∧
    Account.id <$> (new_s ++ new_a) =
      seqZ (id_seq db) (Z.of_nat (length (new_s ++ new_a))) ∧
    next_id s = id_seq db + Z.of_nat (length (new_s ++ new_a)).
Proof.
  intros Htx. apply transaction_Return in Htx as (s1 & s2 & Hw1 & Hn1 & Hsyn & Hana).
  simpl in Hw1, Hn1.
  apply synthetic_pass_inserted in Hsyn as (Hrs & new_s & Hws & Hfs & Hids & Hns).
  apply analytical_pass_inserted in Hana as (Hra & new_a & Hwa & Hfa & Hida & Hna).
  split; [by apply Forall_app |].
  exists new_s, new_a. rewrite Hwa, Hws, Hw1, <-app_assoc.
  repeat split; try done.
  - rewrite fmap_app, Hids, Hida, Hns, Hn1, length_app, Nat2Z.inj_add.
    by rewrite seqZ_app by lia.
  - rewrite Hna, Hns, Hn1, length_app. lia.
Qed.

(** A row whose iteration returned had its lookup sent. *)
Lemma synthetic_step_searchable c pm r s pm' s' :
  synthetic_step fault c pm r s = (Return pm', s') → searchable r.
Proof.
  intros H. destruct (row_values r) as [[[[[[code name] ty] cls] vat] dir]|e] eqn:Hr.
  2:{ by rewrite (synthetic_step_unreadable fault c pm r e s Hr) in H. }
  rewrite (synthetic_step_readable fault c pm r _ _ _ _ _ _ s Hr) in H.
  apply bind_Return in H as (ex & s1 & Hx & _).
  apply execute_select_id_Return in Hx as (Ha & _).
  split; [by eexists |]. exists code.
  split; [by apply row_values_code in Hr as [? _] | done].
Qed.

Lemma analytical_step_searchable c pm r s s' :
  analytical_step fault c pm r s = (Return (), s') → searchable r.
Proof.
  intros H. destruct (row_values r) as [[[[[[code name] ty] cls] vat] dir]|e] eqn:Hr.
  2:{ by rewrite (analytical_step_unreadable fault c pm r e s Hr) in H. }
  rewrite (analytical_step_readable fault c pm r _ _ _ _ _ _ s Hr) in H.
  apply bind_Return in H as (ex & s1 & Hx & _).
  apply execute_select_id_Return in Hx as (Ha & _).
  split; [by eexists |]. exists code.
  split; [by apply row_values_code in Hr as [? _] | done].
Qed.

Lemma synthetic_pass_searchable c rows : ∀ pm s pm' s',
  synthetic_pass fault c pm rows s = (Return pm', s') → Forall searchable rows.
Proof.
  induction rows as [|r rows IH]; intros pm s pm' s' H; simpl in H; [constructor |].
  apply bind_Return in H as (pm1 & s1 & Hstep & Hrest).
  constructor; [by eapply synthetic_step_searchable | by eapply IH].
Qed.

Lemma analytical_pass_searchable c pm rows : ∀ s s',
  analytical_pass fault c pm rows s = (Return (), s') → Forall searchable rows.
Proof.
  induction rows as [|r rows IH]; intros s s' H; simpl in H; [constructor |].
  apply bind_Return in H as ([] & s1 & Hstep & Hrest).
  constructor; [by eapply analytical_step_searchable | by eapply IH].
Qed.

Lemma transaction_searchable db file c pm s :
  transaction fault c file (open db) = (Return pm, s) →
  Forall searchable (synthetic_accounts file ++ analytical_accounts file).
Proof.
  intros Htx. apply transaction_Return in Htx as (s1 & s2 & _ & _ & Hsyn & Hana).
  apply Forall_app. split.
  - by eapply synthetic_pass_searchable.
  - by eapply analytical_pass_searchable.
Qed.

End Inserted.

(** ** The sequence *)

Lemma advances_ret {A} (a : A) : advances (mret a).
Proof. intros s. simpl. lia. Qed.

Lemma advances_lift {A} (r : result A) : advances (lift r).
Proof. intros s. simpl. lia. Qed.

Lemma advances_bind {A B} (m : M A) (f : A → M B) :
  advances m → (∀ a, advances (f a)) → advances (m ≫= f).
Proof.
  intros Hm Hf s. rewrite bind_unfold. specialize (Hm s).
  destruct (m s) as [[a|e] s1]; simpl in *; [| done].
  specialize (Hf a s1). lia.
Qed.

Lemma advances_db_call {A} fault (op : Session → A * Session) :
  (∀ s, next_id s ≤ next_id (op s).2) → advances (db_call fault op).
Proof.
  intros Hop s. unfold db_call. destruct (fault (calls s)); [simpl; lia |].
  specialize (Hop s). destruct (op s) as [a s1]. done.
Qed.

Section Sequence.
Context {U : UnicodeData} (fault : nat → bool).

Lemma advances_call_same {A} (f : Session → A) : advances (db_call fault (λ s, (f s, s))).
Proof. apply advances_db_call. intros s. simpl. lia. Qed.

Lemma advances_select code c : advances (execute_select_id fault code c).
Proof.
  apply advances_bind; [apply advances_lift | intros _]. apply advances_call_same.
Qed.

Lemma advances_insert values : advances (execute_insert fault values).
Proof.
  intros s. unfold execute_insert. cbv zeta.
  apply (advances_bind (adapt _) (λ _, db_call fault _)); [apply advances_lift | intros _].
  apply advances_db_call. intros s'. simpl. lia.
Qed.

Lemma advances_synthetic_step c pm r : advances (synthetic_step fault c pm r).
Proof.
  unfold synthetic_step.
  do 4 (apply advances_bind; [apply advances_lift | intros ?]).
  apply advances_bind; [apply advances_select | intros [i|]]; [apply advances_ret |].
  apply advances_bind; [apply advances_insert | intros ?; apply advances_ret].
Qed.

Lemma advances_synthetic_pass c rows : ∀ pm, advances (synthetic_pass fault c pm rows).
Proof.
  induction rows as [|r rows IH]; intros pm; simpl; [apply advances_ret |].
  apply advances_bind; [apply advances_synthetic_step | auto].
Qed.

Lemma advances_analytical_step c pm r : advances (analytical_step fault c pm r).
Proof.
  unfold analytical_step.
  do 4 (apply advances_bind; [apply advances_lift | intros ?]).
  apply advances_bind; [apply advances_select | intros [i|]]; [apply advances_ret |].
  apply advances_bind; [apply advances_insert | intros ?; apply advances_ret].
Qed.

Lemma advances_analytical_pass c pm rows : advances (analytical_pass fault c pm rows).
Proof.
  induction rows as [|r rows IH]; simpl; [apply advances_ret |].
  apply advances_bind; [apply advances_analytical_step | auto].
Qed.

Lemma advances_try_block c file : advances (try_block fault c file).
Proof.
  unfold try_block, transaction.
  apply advances_bind; [| intros pm].
  - apply advances_bind; [apply advances_db_call; intros s; simpl; lia | intros _].
    apply advances_bind; [apply advances_db_call; intros s; simpl; lia | intros _].
    apply advances_bind; [apply advances_synthetic_pass | intros pm].
    apply advances_bind; [apply advances_analytical_pass | intros _].
    apply advances_ret.
  - apply advances_bind; [apply advances_db_call; intros s; simpl; lia | intros _].
    apply advances_bind; [apply advances_call_same | intros _]. apply advances_ret.
Qed.

(** The sequence never goes back over a run, however the run ends. *)
Lemma import_accounts_seq db file c :
  id_seq db ≤ id_seq (database (import_accounts fault db file c)).
Proof.
  unfold import_accounts. pose proof (advances_try_block c file (open db)) as H.
  destruct (try_block fault c file (open db)) as [[pm|[]] s]; simpl in *; try done.
  by destruct (conn s).
Qed.

End Sequence.

(** ** Runs without failures *)

Lemma quiet_ret {A} (a : A) : quiet (mret a).
Proof. by intros s. Qed.

Lemma quiet_bind {A B} (m : M A) (f : A → M B) :
  quiet m → (∀ a, quiet (f a)) → quiet (m ≫= f).
Proof.
  intros Hm Hf s. rewrite bind_unfold. specialize (Hm s).
  destruct (m s) as [[a|e] s1]; simpl in *; [apply Hf |].
  intros [= ->]. by apply Hm.
Qed.

Lemma quiet_db_call {A} (op : Session → A * Session) : quiet (db_call no_fault op).
Proof. intros s. unfold db_call, no_fault. by destruct (op s). Qed.

Lemma quiet_adapt strings : quiet (adapt strings).
Proof. intros s. unfold adapt, lift. by destruct (decide _). Qed.

Section Quiet.
Context {U : UnicodeData}.

Lemma quiet_select code c : quiet (execute_select_id no_fault code c).
Proof. apply quiet_bind; [apply quiet_adapt | intros _]. apply quiet_db_call. Qed.

Lemma quiet_insert values : quiet (execute_insert no_fault values).
Proof.
  intros s. unfold execute_insert. cbv zeta.
  apply (quiet_bind (adapt _) (λ _, db_call no_fault _)); [apply quiet_adapt | intros _].
  apply quiet_db_call.
Qed.

Lemma execute_select_id_no_fault code c s :
  adaptable code →
  execute_select_id no_fault code c s = (Return (select_id code c (working s)), tick s).
Proof.
  intros Hc. unfold execute_select_id. rewrite bind_unfold, adapt_adaptable; [done |].
  by apply Forall_singleton.
Qed.

Lemma execute_insert_no_fault values s :
  adaptable (Account.code (values (next_id s))) →
  adaptable (Account.name (values (next_id s))) →
  execute_insert no_fault values s = (Return (next_id s), tick (inserting values s)).
Proof.
  intros Hc Hn. unfold execute_insert. cbv zeta.
  rewrite bind_unfold, adapt_adaptable; [done |].
  apply Forall_cons. split; [done |]. by apply Forall_singleton.
Qed.

Lemma quiet_synthetic_step c pm r : quiet (synthetic_step no_fault c pm r).
Proof.
  intros s. destruct (row_values r) as [[[[[[code name] ty] cls] vat] dir]|e] eqn:Hr.
  - rewrite (synthetic_step_readable no_fault c pm r _ _ _ _ _ _ s Hr).
    apply quiet_bind; [apply quiet_select | intros [i|]]; [apply quiet_ret |].
    apply quiet_bind; [apply quiet_insert | intros ?; apply quiet_ret].
  - by rewrite (synthetic_step_unreadable no_fault c pm r e s Hr).
Qed.

Lemma quiet_analytical_step c pm r : quiet (analytical_step no_fault c pm r).
Proof.
  intros s. destruct (row_values r) as [[[[[[code name] ty] cls] vat] dir]|e] eqn:Hr.
  - rewrite (analytical_step_readable no_fault c pm r _ _ _ _ _ _ s Hr).
    apply quiet_bind; [apply quiet_select | intros [i|]]; [apply quiet_ret |].
    apply quiet_bind; [apply quiet_insert | intros ?; apply quiet_ret].
  - by rewrite (analytical_step_unreadable no_fault c pm r e s Hr).
Qed.

Lemma quiet_synthetic_pass c rows : ∀ pm, quiet (synthetic_pass no_fault c pm rows).
Proof.
  induction rows as [|r rows IH]; intros pm; simpl; [apply quiet_ret |].
  apply quiet_bind; [apply quiet_synthetic_step | auto].
Qed.

Lemma quiet_analytical_pass c pm rows : quiet (analytical_pass no_fault c pm rows).
Proof.
  induction rows as [|r rows IH]; simpl; [apply quiet_ret |].
  apply quiet_bind; [apply quiet_analytical_step | auto].
Qed.

Lemma quiet_try_block c file : quiet (try_block no_fault c file).
Proof.
  unfold try_block, transaction.
  apply quiet_bind; [| intros pm].
  - apply quiet_bind; [apply quiet_db_call | intros _].
    apply quiet_bind; [apply quiet_db_call | intros _].
    apply quiet_bind; [apply quiet_synthetic_pass | intros pm].
    apply quiet_bind; [apply quiet_analytical_pass | intros _]. apply quiet_ret.
  - apply quiet_bind; [apply quiet_db_call | intros _].
    apply quiet_bind; [apply quiet_db_call | intros _]. apply quiet_ret.
Qed.

(** Rows that can be read and sent are all a pass without failures
    needs. *)
Lemma synthetic_pass_total c rows : ∀ pm s,
  Forall sendable rows →
  ∃ pm' s', synthetic_pass no_fault c pm rows s = (Return pm', s').
Proof.
  induction rows as [|r rows IH]; intros pm s Hrows; simpl; [by eexists _, _ |].
  apply Forall_cons in Hrows
    as [(code & name & ty & cls & vat & dir & Hr & Hc & Hn) Hrows].
  rewrite bind_unfold, (synthetic_step_readable no_fault c pm r _ _ _ _ _ _ s Hr).
  rewrite bind_unfold, execute_select_id_no_fault by done.
  destruct (select_id code c (working s)) as [i|]; simpl; [by apply IH |].
  rewrite bind_unfold, execute_insert_no_fault by done. simpl. by apply IH.
Qed.

Lemma analytical_pass_total c pm rows : ∀ s,
  Forall sendable rows →
  ∃ s', analytical_pass no_fault c pm rows s = (Return (), s').
Proof.
  induction rows as [|r rows IH]; intros s Hrows; simpl; [by eexists |].
  apply Forall_cons in Hrows
    as [(code & name & ty & cls & vat & dir & Hr & Hc & Hn) Hrows].
  rewrite bind_unfold, (analytical_step_readable no_fault c pm r _ _ _ _ _ _ s Hr).
  rewrite bind_unfold, execute_select_id_no_fault by done.
  destruct (select_id code c (working s)) as [i|]; simpl; [by apply IH |].
  rewrite bind_unfold, execute_insert_no_fault by done. simpl. by apply IH.
Qed.

Lemma transaction_total c file s :
  Forall sendable (synthetic_accounts file ++ analytical_accounts file) →
  ∃ pm s', transaction no_fault c file s = (Return pm, s').
Proof.
  intros [Hs Ha]%Forall_app. unfold transaction.
  rewrite bind_unfold. unfold connect at 1, db_call at 1, no_fault at 1. simpl.
  rewrite bind_unfold. unfold execute_delete at 1, db_call at 1, no_fault at 1. simpl.
  rewrite bind_unfold.
  match goal with |- context [synthetic_pass _ _ _ _ ?s0] =>
    destruct (synthetic_pass_total c _ ∅ s0 Hs) as (pm & s1 & ->) end.
  rewrite bind_unfold.
  destruct (analytical_pass_total c pm _ s1 Ha) as (s2 & ->). by eexists _, _.
Qed.

(** The run without failures ends with status 0 once every row of the
    two lists can be read and sent. *)
Lemma no_fault_total db file c :
  Forall sendable (synthetic_accounts file ++ analytical_accounts file) →
  exit_status (import_accounts no_fault db file c) = 0.
Proof.
  intros Hrows. destruct (transaction_total c file (open db) Hrows) as (pm & s & Htx).
  by destruct (import_accounts_no_fault db file c pm s Htx) as [? _].
Qed.

(** The run without failures ends with status 0 only if every row of the
    two lists can be read, and never in the first handler. *)
Lemma no_fault_exit db file c :
  (exit_status (import_accounts no_fault db file c) = 0 →
   Forall readable (synthetic_accounts file ++ analytical_accounts file)) ∧
  raised (import_accounts no_fault db file c) ≠ Some DatabaseError.
Proof.
  split.
  - intros Hexit.
    destruct (import_accounts_success no_fault db file c Hexit) as (pm & s & Htx & _).
    by apply transaction_inserted in Htx as [? _].
  - unfold import_accounts. pose proof (quiet_try_block c file (open db)) as H.
    by destruct (try_block no_fault c file (open db)) as [[pm|[]] s].
Qed.

End Quiet.

(** ** The ends of a run *)

Section Ends.
Context {U : UnicodeData} (fault : nat → bool).

(** The three ends of a run. *)
Lemma outcome_shape db file c :
  (exit_status (import_accounts fault db file c) = 0 ∧
   raised (import_accounts fault db file c) = None ∧
   rolled_back (import_accounts fault db file c) = false ∧
   committed_run (import_accounts fault db file c) = true)
  ∨
  (exit_status (import_accounts fault db file c) = 1 ∧
   raised (import_accounts fault db file c) = Some DatabaseError)
  ∨
  (exit_status (import_accounts fault db file c) = 1 ∧
   raised (import_accounts fault db file c) = Some OtherError ∧
   rolled_back (import_accounts fault db file c) = false ∧
   committed_run (import_accounts fault db file c) = false ∧
   accounts (database (import_accounts fault db file c)) = accounts db).
Proof.
  unfold import_accounts.
  pose proof (keeps_transaction fault c file (open db)) as (Hc & Hn & _).
  pose proof (try_block_cases fault c file (open db)) as Htry.
  destruct (transaction fault c file (open db)) as [[pm|e] s] eqn:Htx; simpl in Hc, Hn.
  - destruct (fault (calls s)); [rewrite Htry; right; left; done |].
    destruct (fault (S (calls s))); rewrite Htry; [right; left; done | by left].
  - rewrite Htry. right. destruct e; [by left |]. right. simpl. by rewrite Hn.
Qed.

End Ends.

(** ** Accounts and their rows *)

Lemma NoDup_fmap_eq {A B} (f : A → B) (l : list A) a b :
  NoDup (f <$> l) → a ∈ l → b ∈ l → f a = f b → a = b.
Proof.
  induction l as [|x l IH]; [by intros _ ?%elem_of_nil |].
  rewrite fmap_cons, NoDup_cons, !elem_of_cons. intros [Hx Hl] [->|Ha] [->|Hb] Hf.
  - done.
  - exfalso. apply Hx. rewrite Hf. by apply list_elem_of_fmap_2.
  - exfalso. apply Hx. rewrite <-Hf. by apply list_elem_of_fmap_2.
  - by apply IH.
Qed.

Lemma length_inserted_codes seen codes :
  length (inserted_codes seen codes) =
  size ((list_to_set codes : gset str) ∖ list_to_set seen).
Proof.
  rewrite <-(size_list_to_set (C := gset str) (inserted_codes seen codes))
    by apply NoDup_inserted_codes.
  f_equal. apply set_eq. intros x.
  rewrite elem_of_list_to_set, elem_of_inserted_codes, elem_of_difference,
    !elem_of_list_to_set. done.
Qed.

Section Rows.
Context {U : UnicodeData}.

Lemma get_account_class_bounds code n : get_account_class code = Return n → 0 ≤ n ≤ 9.
Proof.
  unfold get_account_class, int. destruct code as [|ch rest]; [intros [= <-]; lia |].
  destruct (isdigit ch); [| intros [= <-]; lia].
  destruct (decimal ch) as [d|] eqn:Hd; [| done]. intros [= <-]. by eapply decimal_range.
Qed.

Lemma synthetic_account_shape c r i a :
  synthetic_account c r i = Some a →
  Account.id a = i ∧ well_shaped c r a ∧
  Account.is_analytical a = false ∧ Account.parent_id a = None.
Proof.
  unfold synthetic_account.
  destruct (row_values r) as [[[[[[code name] ty] cls] vat] dir]|e] eqn:Hr; [| done].
  intros [= <-]. apply row_values_code in Hr as (? & ? & ? & ? & ? & ?).
  unfold well_shaped. simpl. repeat split; done.
Qed.

Lemma analytical_account_shape c pm r i a :
  analytical_account c pm r i = Some a →
  Account.id a = i ∧ well_shaped c r a ∧
  Account.is_analytical a = true ∧
  Account.parent_id a = find_parent pm (parent_code_of r).
Proof.
  unfold analytical_account.
  destruct (row_values r) as [[[[[[code name] ty] cls] vat] dir]|e] eqn:Hr; [| done].
  intros [= <-]. apply row_values_code in Hr as (? & ? & ? & ? & ? & ?).
  unfold well_shaped. simpl. repeat split; done.
Qed.

Lemma code_of_stripped r code : code_of r = Some code → strip code = code.
Proof.
  unfold code_of. destruct (Код r) as [raw|]; [| done]. intros [= <-]. apply strip_idemp.
Qed.

Lemma unreadable_class r code e :
  code_of r = Some code → get_account_class code = Raise e → ¬ readable r.
Proof.
  intros Hc He [[[[[[code' name] ty] cls] vat] dir] Hr].
  apply row_values_code in Hr as (Hc' & _ & Hcls & _). congruence.
Qed.

Variable fault : nat → bool.

Lemma synthetic_pass_row_exact c pre r post pm s pm' s' x :
  synthetic_pass fault c pm (pre ++ r :: post) s = (Return pm', s') →
  code_of r = Some x → x ∉ codes_of c (working s) → x ∉ codes_in pre →
  ∃ a, synthetic_account c r (Account.id a) = Some a ∧ Account.code a = x ∧
       Account.company_id a = c ∧ a ∈ working s'.
Proof.
  intros H Hx Hfree Hpre. rewrite synthetic_pass_app in H.
  apply bind_Return in H as (pm1 & s1 & H1 & H). simpl in H.
  apply bind_Return in H as (pm2 & s2 & H2 & H3).
  apply synthetic_pass_Return in H1 as (_ & Hrun1 & _).
  apply synthetic_pass_Return in H3 as (_ & Hrun3 & _).
  apply synthetic_step_exact in H2 as (_ & x' & Hx' & H2).
  assert (x' = x) as -> by congruence.
  assert (select_id x c (working s1) = None) as Hsel.
  { apply select_id_None. rewrite (run_of_codes _ _ _ _ _ Hrun1). tauto. }
  rewrite Hsel in H2. destruct H2 as (a & Ha & Hid & Hc & Hco & Hw & _).
  exists a. rewrite Hid. repeat split; try done.
  eapply run_of_incl; [done |]. rewrite Hw. apply elem_of_app. right. left.
Qed.

Lemma analytical_pass_row_exact c pm pre r post s s' x :
  analytical_pass fault c pm (pre ++ r :: post) s = (Return (), s') →
  code_of r = Some x → x ∉ codes_of c (working s) → x ∉ codes_in pre →
  ∃ a, analytical_account c pm r (Account.id a) = Some a ∧ Account.code a = x ∧
       Account.company_id a = c ∧ a ∈ working s'.
Proof.
  intros H Hx Hfree Hpre. rewrite analytical_pass_app in H.
  apply bind_Return in H as ([] & s1 & H1 & H). simpl in H.
  apply bind_Return in H as ([] & s2 & H2 & H3).
  apply analytical_pass_Return in H1 as (_ & Hrun1 & _).
  apply analytical_pass_Return in H3 as (_ & Hrun3 & _).
  apply analytical_step_exact in H2 as (_ & x' & Hx' & H2).
  assert (x' = x) as -> by congruence.
  assert (select_id x c (working s1) = None) as Hsel.
  { apply select_id_None. rewrite (run_of_codes _ _ _ _ _ Hrun1). tauto. }
  rewrite Hsel in H2. destruct H2 as (a & Ha & Hid & Hc & Hco & Hw & _).
  exists a. rewrite Hid. repeat split; try done.
  eapply run_of_incl; [done |]. rewrite Hw. apply elem_of_app. right. left.
Qed.

(** In the table of a transaction that ran to its end, a code the purged
    table does not hold names one account of the company at most. *)
Lemma transaction_code_unique db file c pm s a b :
  transaction fault c file (open db) = (Return pm, s) →
  a ∈ working s → b ∈ working s →
  Account.company_id a = c → Account.company_id b = c →
  Account.code a = Account.code b →
  Account.code a ∉ codes_of c (purge c (accounts db)) →
  a = b.
Proof.
  intros Htx Ha Hb Hca Hcb Hab Hfree.
  apply transaction_table in Htx as (new & Hw & _ & Hcodes). simpl in Hw, Hcodes.
  rewrite Hw in Ha, Hb.
  assert (∀ d, d ∈ purge c (accounts db) ++ new → Account.company_id d = c →
               Account.code d = Account.code a → d ∈ new) as Hnew.
  { intros d [Hd|Hd]%elem_of_app Hcd Hda; [| done]. exfalso. apply Hfree.
    apply elem_of_codes_of. by exists d. }
  eapply (NoDup_fmap_eq Account.code new); [| by apply Hnew | by apply Hnew | done].
  rewrite Hcodes. apply NoDup_inserted_codes.
Qed.

End Rows.

(** * Further properties of the run *)

Section Extras.
Context {U : UnicodeData}.

(** X3.  A code whose first character is a digit without a decimal value
    (a superscript two, for one) makes [get_account_class] raise: [int]
    rejects what [isdigit] accepted.  A row of either list with such a
    code ends the run without failures in the second handler, with
    status 1 and the table as it was. *)
Theorem account_class_raises db file c r ch rest :
  isdigit ch = true → decimal ch = None →
  get_account_class (ch :: rest) = Raise OtherError ∧
  (r ∈ synthetic_accounts file ++ analytical_accounts file →
   code_of r = Some (ch :: rest) →
   raised (import_accounts no_fault db file c) = Some OtherError ∧
   exit_status (import_accounts no_fault db file c) = 1 ∧
   accounts (database (import_accounts no_fault db file c)) = accounts db).
Proof.
  intros Hd Hn.
  assert (get_account_class (ch :: rest) = Raise OtherError) as Hraise.
  { unfold get_account_class, int. by rewrite Hd, Hn. }
  split; [done |]. intros Hr Hcode.
  destruct (no_fault_exit db file c) as [Hexit Hdb].
  destruct (outcome_shape no_fault db file c) as [(He & _)|[(_ & Hraised)|(? & ? & _ & _ & ?)]];
    [| done | done].
  exfalso. apply Hexit in He.
  apply (proj1 (Forall_forall _ _) He) in Hr. by eapply unreadable_class.
Qed.

(** X5.  A run that ends in the second handler (an exception that is no
    database error) ends with status 1, without a call to rollback and
    without a commit, and the committed table is the one from before the
    run. *)
Theorem other_error_outcome fault db file c :
  raised (import_accounts fault db file c) = Some OtherError →
  exit_status (import_accounts fault db file c) = 1 ∧
  rolled_back (import_accounts fault db file c) = false ∧
  committed_run (import_accounts fault db file c) = false ∧
  accounts (database (import_accounts fault db file c)) = accounts db.
Proof.
  intros Hr.
  destruct (outcome_shape fault db file c) as [(_ & H & _)|[(_ & H)|(? & _ & ? & ? & ?)]];
    [congruence | congruence | done].
Qed.

(** X6.  When no database call fails, the run ends with status 0 if
    every synthetic and every analytical row can be read (code, name and
    VAT flag present, a class for the code) and has no NUL character in
    its code and name.  A run that ends with status 0, failures or not,
    has read every such row and sent its code: each can be read and has
    no NUL character in its code.  A run without failures never ends in
    the first handler; when one of the rows cannot be read or has a NUL
    character in its code, it ends in the second one with status 1 and
    the table as it was. *)
Theorem run_without_faults db file c :
  (Forall sendable (synthetic_accounts file ++ analytical_accounts file) →
   exit_status (import_accounts no_fault db file c) = 0) ∧
  (∀ fault, exit_status (import_accounts fault db file c) = 0 →
            Forall searchable (synthetic_accounts file ++ analytical_accounts file)) ∧
  raised (import_accounts no_fault db file c) ≠ Some DatabaseError ∧
  (¬ Forall searchable (synthetic_accounts file ++ analytical_accounts file) →
   raised (import_accounts no_fault db file c) = Some OtherError ∧
   exit_status (import_accounts no_fault db file c) = 1 ∧
   accounts (database (import_accounts no_fault db file c)) = accounts db).
Proof.
  destruct (no_fault_exit db file c) as [_ Hdb].
  assert (∀ fault, exit_status (import_accounts fault db file c) = 0 →
            Forall searchable (synthetic_accounts file ++ analytical_accounts file)) as Hnec.
  { intros fault Hexit.
    destruct (import_accounts_success fault db file c Hexit) as (pm & s & Htx & _).
    by eapply transaction_searchable. }
  split; [apply no_fault_total |]. split; [done |]. split; [done |].
  intros Hrows.
  destruct (outcome_shape no_fault db file c) as [(He & _)|[(_ & Hr)|(He & Hr & _ & _ & Ht)]];
    [by apply Hnec in He | done | done].
Qed.

(** X7.  When [connect] fails there is no connection to roll back: the
    run ends with status 1 on a database error, without a call to
    rollback, and leaves the database as it was, sequence included. *)
Theorem connect_failure fault db file c :
  fault 0%nat = true →
  import_accounts fault db file c =
  {| exit_status := 1; raised := Some DatabaseError; rolled_back := false;
     committed_run := false; database := db |}.
Proof.
  intros H0. unfold import_accounts, try_block, transaction.
  rewrite !bind_unfold. unfold connect, db_call. simpl. rewrite H0. simpl.
  by destruct db.
Qed.

(** X8.  The exit status is 0 or 1; it is 0 exactly when nothing was
    raised, and then the commit returned and rollback was not called. *)
Theorem exit_status_cases fault db file c :
  (exit_status (import_accounts fault db file c) = 0 ∨
   exit_status (import_accounts fault db file c) = 1) ∧
  (exit_status (import_accounts fault db file c) = 0 ↔
   raised (import_accounts fault db file c) = None) ∧
  (exit_status (import_accounts fault db file c) = 0 →
   committed_run (import_accounts fault db file c) = true ∧
   rolled_back (import_accounts fault db file c) = false).
Proof.
  destruct (outcome_shape fault db file c)
    as [(He & Hr & Hrb & Hc)|[(He & Hr)|(He & Hr & _)]]; rewrite He, Hr;
    (split; [auto |]); (split; [split; (done || lia) |]); (done || lia).
Qed.

(** X9.  After a run that ends with status 0 the table is the purged
    table, followed by accounts of synthetic rows, followed by accounts
    of analytical rows: every new account is the one its loop computes
    from a row of its list, and the new identifiers are consecutive from
    the sequence. *)
Theorem new_accounts_from_rows fault db file c :
  exit_status (import_accounts fault db file c) = 0 →
  ∃ pm new_s new_a,
    (try_block fault c file (open db)).1 = Return pm ∧
    accounts (database (import_accounts fault db file c)) =
      purge c (accounts db) ++ new_s ++ new_a ∧
    Forall (λ a, ∃ r, r ∈ synthetic_accounts file ∧
                      synthetic_account c r (Account.id a) = Some a) new_s ∧
    Forall (λ a, ∃ r, r ∈ analytical_accounts file ∧
                      analytical_account c pm r (Account.id a) = Some a) new_a ∧
    Account.id <$> (new_s ++ new_a) =
      seqZ (id_seq db) (Z.of_nat (length (new_s ++ new_a))) ∧
    id_seq (database (import_accounts fault db file c)) =
      id_seq db + Z.of_nat (length (new_s ++ new_a)).
Proof.
  intros Hexit.
  destruct (import_accounts_success fault db file c Hexit) as (pm & s & Htx & Htry & ->).
  apply transaction_inserted in Htx as (_ & new_s & new_a & Hw & Hs & Ha & Hids & Hn).
  by exists pm, new_s, new_a.
Qed.

(** X10.  Whatever the end of the run, an account that is in the table
    after it and was not before belongs to the company, is active, has a
    stripped code and name, the class of its code (0 to 9), an identifier
    off the sequence, and level 2 exactly when it has a parent of
    non-zero identifier, level 1 otherwise; when it is not analytical it
    has no parent. *)
Theorem new_accounts_shape fault db file c a :
  a ∈ accounts (database (import_accounts fault db file c)) →
  a ∉ accounts db →
  Account.company_id a = c ∧ Account.is_active a = true ∧
  strip (Account.code a) = Account.code a ∧
  strip (Account.name a) = Account.name a ∧
  get_account_class (Account.code a) = Return (Account.account_class a) ∧
  0 ≤ Account.account_class a ≤ 9 ∧
  id_seq db ≤ Account.id a ∧
  Account.level a = level_of (Account.parent_id a) ∧
  (Account.is_analytical a = false → Account.parent_id a = None).
Proof.
  intros Ha Hnew.
  destruct (import_accounts_cases fault db file c)
    as [(_ & _ & _ & Hacc & _)|(_ & pm & s & Htx & Hdb & _)]; [by rewrite Hacc in Ha |].
  rewrite Hdb in Ha. simpl in Ha.
  apply transaction_inserted in Htx as (_ & new_s & new_a & Hw & Hs & Han & Hids & _).
  rewrite Hw in Ha. apply elem_of_app in Ha as [Ha|Ha].
  { by apply elem_of_purge in Ha as [Ha _]. }
  assert (id_seq db ≤ Account.id a) as Hid.
  { assert (Account.id a ∈ Account.id <$> (new_s ++ new_a)) as Hin
      by (by apply list_elem_of_fmap_2).
    rewrite Hids in Hin. apply elem_of_seqZ in Hin. lia. }
  assert (∃ r, well_shaped c r a ∧
               (Account.is_analytical a = false → Account.parent_id a = None))
    as (r & (Hc & Hact & Hcode & Hname & Hcls & _ & _ & _ & Hlevel) & Hpar).
  { apply elem_of_app in Ha as [Ha|Ha].
    - apply (proj1 (Forall_forall _ _) Hs) in Ha as (r & _ & Hr).
      apply synthetic_account_shape in Hr as (_ & Hshape & _ & Hp). by exists r.
    - apply (proj1 (Forall_forall _ _) Han) in Ha as (r & _ & Hr).
      apply analytical_account_shape in Hr as (_ & Hshape & Hana & _). exists r.
      split; [done | congruence]. }
  repeat split; try done.
  - by eapply code_of_stripped.
  - destruct (Име_на_сметка r) as [nraw|]; [| done]. injection Hname as <-.
    apply strip_idemp.
  - apply get_account_class_bounds in Hcls. lia.
  - apply get_account_class_bounds in Hcls. lia.
Qed.

(** X11.  Whatever the end of the run, the parent of a new account is in
    the table: an account of the company with that identifier, whose
    code is the code of a synthetic row of the file, and which is the
    account the lookup of that code finds. *)
Theorem parent_exists fault db file c a pid :
  a ∈ accounts (database (import_accounts fault db file c)) →
  a ∉ accounts db →
  Account.parent_id a = Some pid →
  ∃ b, b ∈ accounts (database (import_accounts fault db file c)) ∧
       Account.id b = pid ∧ Account.company_id b = c ∧
       Account.code b ∈ codes_in (synthetic_accounts file) ∧
       select_id (Account.code b) c
         (accounts (database (import_accounts fault db file c))) = Some pid.
Proof.
  intros Ha Hnew Hpar.
  destruct (import_accounts_cases fault db file c)
    as [(_ & _ & _ & Hacc & _)|(_ & pm & s & Htx & Hdb & _)]; [by rewrite Hacc in Ha |].
  rewrite Hdb in *. simpl in *.
  destruct (transaction_parent_map fault db file c pm s Htx) as [Hin Hout].
  apply transaction_inserted in Htx as (_ & new_s & new_a & Hw & Hs & Han & _).
  rewrite Hw in Ha. apply elem_of_app in Ha as [Ha|Ha].
  { by apply elem_of_purge in Ha as [Ha _]. }
  apply elem_of_app in Ha as [Ha|Ha].
  { apply (proj1 (Forall_forall _ _) Hs) in Ha as (r & _ & Hr).
    apply synthetic_account_shape in Hr as (_ & _ & _ & Hp). congruence. }
  apply (proj1 (Forall_forall _ _) Han) in Ha as (r & _ & Hr).
  apply analytical_account_shape in Hr as (_ & _ & _ & Hp). rewrite Hpar in Hp.
  destruct (parent_code_of r) as [[|ch p]|]; [done | | done]. simpl in Hp.
  destruct (decide ((ch :: p) ∈ codes_in (synthetic_accounts file))) as [Hsyn|Hsyn].
  2:{ rewrite (Hout _ Hsyn) in Hp. done. }
  destruct (Hin _ Hsyn) as (pid' & Hpm & Hsel & _).
  assert (pid' = pid) as -> by congruence.
  destruct (select_id_Some _ _ _ _ Hsel) as (b & Hb & Hcode & Hco & Hid).
  exists b. rewrite Hcode. done.
Qed.

(** X12.  Identifiers stay distinct and below the sequence: if they were
    before the run they are after it, whatever its end, and the sequence
    has not gone back. *)
Theorem identifiers_stay_fresh fault db file c :
  fresh_ids db →
  fresh_ids (database (import_accounts fault db file c)) ∧
  id_seq db ≤ id_seq (database (import_accounts fault db file c)).
Proof.
  intros [Hnd Hlt]. pose proof (import_accounts_seq fault db file c) as Hseq.
  split; [| done]. unfold fresh_ids.
  destruct (import_accounts_cases fault db file c)
    as [(_ & _ & _ & Hacc & _)|(_ & pm & s & Htx & Hdb & _)].
  - rewrite Hacc. split; [done |]. eapply Forall_impl; [exact Hlt |]. simpl. lia.
  - rewrite Hdb. simpl.
    apply transaction_inserted in Htx as (_ & new_s & new_a & Hw & _ & _ & Hids & Hn).
    rewrite Hw, Hn, fmap_app, Hids.
    assert (Forall (λ a, Account.id a < id_seq db) (purge c (accounts db))) as Hp.
    { apply Forall_forall. intros a [Ha _]%elem_of_purge.
      by apply (proj1 (Forall_forall _ _) Hlt). }
    split.
    + apply NoDup_app. split; [| split; [| apply NoDup_seqZ]].
      * eapply sublist_NoDup; [exact Hnd |]. apply fmap_sublist, sublist_filter.
      * intros i (a & -> & Ha)%list_elem_of_fmap Hi%elem_of_seqZ.
        apply (proj1 (Forall_forall _ _) Hp) in Ha. lia.
    + apply Forall_app. split.
      * eapply Forall_impl; [exact Hp |]. simpl. lia.
      * apply Forall_forall. intros a Ha.
        assert (Account.id a ∈ Account.id <$> (new_s ++ new_a)) as Hin
          by (by apply list_elem_of_fmap_2).
        rewrite Hids in Hin. apply elem_of_seqZ in Hin. lia.
Qed.

(** X13.  After a run that ends with status 0 the parent map holds, for
    the code of every synthetic row, the identifier the lookup of that
    code finds in the table, and it holds no other key. *)
Theorem parent_map_is_lookup fault db file c :
  exit_status (import_accounts fault db file c) = 0 →
  ∃ pm,
    (try_block fault c file (open db)).1 = Return pm ∧
    ∀ p,
      (p ∈ codes_in (synthetic_accounts file) →
       is_Some (pm !! p) ∧
       pm !! p = select_id p c (accounts (database (import_accounts fault db file c)))) ∧
      (p ∉ codes_in (synthetic_accounts file) → pm !! p = None).
Proof.
  intros Hexit.
  destruct (import_accounts_success fault db file c Hexit) as (pm & s & Htx & Htry & ->).
  destruct (transaction_parent_map fault db file c pm s Htx) as [Hin Hout].
  exists pm. split; [done |]. intros p. split; [| apply Hout]. simpl.
  intros Hp. destruct (Hin p Hp) as (pid & -> & -> & _). eauto.
Qed.

(** X14.  A file without a synthetic or an analytical row, the empty
    file for one, leaves the purge alone to act: the run without
    failures ends with status 0 and commits the purged table, the
    sequence untouched; under failures the table is the old one or the
    purged one. *)
Theorem no_rows_only_purge fault db file c :
  synthetic_accounts file = [] → analytical_accounts file = [] →
  import_accounts no_fault db file c =
    {| exit_status := 0; raised := None; rolled_back := false; committed_run := true;
       database := {| accounts := purge c (accounts db); id_seq := id_seq db |} |} ∧
  (accounts (database (import_accounts fault db file c)) = accounts db ∨
   accounts (database (import_accounts fault db file c)) = purge c (accounts db)).
Proof.
  intros Hs Ha. split.
  - unfold import_accounts, try_block, transaction. by rewrite Hs, Ha.
  - destruct (import_accounts_table fault db file c) as [->|(new & -> & _ & Hcodes)];
      [by left |].
    right. rewrite Hs, Ha in Hcodes. simpl in Hcodes.
    apply fmap_nil_inv in Hcodes as ->. by rewrite app_nil_r.
Qed.

(** X15.  After a run that ends with status 0 the company has as many
    accounts as the purge spared plus one per code of the synthetic and
    analytical rows that the spared accounts do not bear, however often
    the file repeats a code. *)
Theorem committed_count fault db file c :
  exit_status (import_accounts fault db file c) = 0 →
  count_accounts c (accounts (database (import_accounts fault db file c))) =
  (count_accounts c (purge c (accounts db)) +
   size ((list_to_set (codes_in (synthetic_accounts file) ++
                       codes_in (analytical_accounts file)) : gset str) ∖
         list_to_set (codes_of c (purge c (accounts db)))))%nat.
Proof.
  intros Hexit.
  destruct (import_accounts_success fault db file c Hexit) as (pm & s & Htx & _ & ->).
  apply transaction_table in Htx as (new & Hw & Hall & Hcodes). simpl in *.
  rewrite Hw, count_accounts_app, (count_accounts_company c new).
  2:{ eapply Forall_impl; [exact Hall |]. naive_solver. }
  by rewrite <-length_inserted_codes, <-Hcodes, length_fmap.
Qed.

(** X16.  The first synthetic row wins its code.  After a run that ends
    with status 0, when [r] is the first synthetic row with code [x] and
    the purged table does not hold [x] for the company, every account of
    the company under [x] is the account the first loop computes from
    [r], whatever later synthetic rows and whatever analytical rows bear
    the same code. *)
Theorem first_synthetic_row_wins fault db file c pre r post x :
  exit_status (import_accounts fault db file c) = 0 →
  synthetic_accounts file = pre ++ r :: post →
  code_of r = Some x →
  x ∉ codes_of c (purge c (accounts db)) ++ codes_in pre →
  (∃ a, a ∈ accounts (database (import_accounts fault db file c)) ∧
        Account.code a = x ∧ Account.company_id a = c) ∧
  ∀ a, a ∈ accounts (database (import_accounts fault db file c)) →
       Account.code a = x → Account.company_id a = c →
       synthetic_account c r (Account.id a) = Some a.
Proof.
  intros Hexit Hsplit Hx [Hfree Hpre]%not_elem_of_app.
  destruct (import_accounts_success fault db file c Hexit) as (pm & s & Htx & _ & ->).
  simpl. pose proof Htx as Htx'.
  apply transaction_Return in Htx' as (s1 & s2 & Hw1 & _ & Hsyn & Hana).
  simpl in Hw1. rewrite Hsplit in Hsyn.
  destruct (synthetic_pass_row_exact fault c pre r post ∅ s1 pm s2 x Hsyn Hx)
    as (a0 & Ha0 & Hc0 & Hco0 & Hin0); [by rewrite Hw1 | done |].
  apply analytical_pass_Return in Hana as (_ & Hrun & _).
  pose proof (run_of_incl _ _ _ _ _ Hrun Hin0) as Hin.
  split; [by exists a0 |]. intros a Ha Hc Hco.
  rewrite (transaction_code_unique fault db file c pm s a a0 Htx); try done; congruence.
Qed.

(** X17.  The first analytical row wins a code no synthetic row bears.
    After a run that ends with status 0, when [r] is the first analytical
    row with code [x], no synthetic row has code [x] and the purged table
    does not hold [x] for the company, every account of the company
    under [x] is the account the second loop computes from [r] and the
    parent map. *)
Theorem first_analytical_row_wins fault db file c pre r post x :
  exit_status (import_accounts fault db file c) = 0 →
  analytical_accounts file = pre ++ r :: post →
  code_of r = Some x →
  x ∉ codes_of c (purge c (accounts db)) ++ codes_in (synthetic_accounts file) ++ codes_in pre →
  ∃ pm,
    (try_block fault c file (open db)).1 = Return pm ∧
    (∃ a, a ∈ accounts (database (import_accounts fault db file c)) ∧
          Account.code a = x ∧ Account.company_id a = c) ∧
    ∀ a, a ∈ accounts (database (import_accounts fault db file c)) →
         Account.code a = x → Account.company_id a = c →
         analytical_account c pm r (Account.id a) = Some a.
Proof.
  intros Hexit Hsplit Hx [Hfree [Hsynth Hpre]%not_elem_of_app]%not_elem_of_app.
  destruct (import_accounts_success fault db file c Hexit) as (pm & s & Htx & Htry & ->).
  simpl. pose proof Htx as Htx'.
  apply transaction_Return in Htx' as (s1 & s2 & Hw1 & _ & Hsyn & Hana).
  simpl in Hw1. rewrite Hsplit in Hana.
  apply synthetic_pass_Return in Hsyn as (_ & Hrun1 & _).
  destruct (analytical_pass_row_exact fault c pm pre r post s2 s x Hana Hx)
    as (a0 & Ha0 & Hc0 & Hco0 & Hin0); [| done |].
  { rewrite (run_of_codes _ _ _ _ _ Hrun1), Hw1. tauto. }
  exists pm. split; [done |]. split; [by exists a0 |]. intros a Ha Hc Hco.
  rewrite (transaction_code_unique fault db file c pm s a a0 Htx); try done; congruence.
Qed.

(** X18.  A committed import re-creates every account of the company
    that bears no seed code: after a run that ends with status 0 such an
    account has an identifier the sequence handed out during the run, so
    none of them is a row from before the run when the old identifiers
    were below the sequence. *)
Theorem non_seed_accounts_recreated fault db file c a :
  exit_status (import_accounts fault db file c) = 0 →
  a ∈ accounts (database (import_accounts fault db file c)) →
  Account.company_id a = c → Account.code a ∉ seed_codes →
  id_seq db ≤ Account.id a < id_seq (database (import_accounts fault db file c)) ∧
  (Forall (λ b, Account.id b < id_seq db) (accounts db) → a ∉ accounts db).
Proof.
  intros Hexit Ha Hc Hseed.
  destruct (import_accounts_success fault db file c Hexit) as (pm & s & Htx & _ & Hdb).
  rewrite Hdb in *. simpl in *.
  apply transaction_table in Htx as (new & Hw & Hall & _). simpl in *.
  rewrite Hw in Ha. apply elem_of_app in Ha as [Ha|Ha].
  { apply elem_of_purge in Ha as [_ Ha]. tauto. }
  apply (proj1 (Forall_forall _ _) Hall) in Ha as [_ Hid]. split; [done |].
  intros Hold Hin. apply (proj1 (Forall_forall _ _) Hold) in Hin. lia.
Qed.

End Extras.

(** * The further properties at work on the small chart *)

Lemma account_class_raises_witness :
  get_account_class (U := latin1) [178; 49] = Raise OtherError ∧
  raised (import_accounts (U := latin1) no_fault example_db [row_41; row_squared] 1)
    = Some OtherError.
Proof.
  destruct (account_class_raises (U := latin1) example_db [row_41; row_squared] 1
              row_squared 178 [49]) as [Hclass Hrun]; [reflexivity | reflexivity |].
  split; [exact Hclass |]. apply Hrun; [compute_done | reflexivity].
Defined.

Lemma other_error_outcome_witness :
  exit_status (import_accounts (U := ascii_only) no_fault example_db
                 [row_41; row_short] 1) = 1 ∧
  accounts (database (import_accounts (U := ascii_only) no_fault example_db
                        [row_41; row_short] 1)) = accounts example_db.
Proof.
  destruct (other_error_outcome (U := ascii_only) no_fault example_db [row_41; row_short] 1)
    as (He & _ & _ & Hacc); [vm_compute; reflexivity |].
  split; [exact He | exact Hacc].
Defined.

Lemma connect_failure_witness :
  database (import_accounts (U := ascii_only) (fault_at 0) example_db example_file 1)
    = example_db.
Proof.
  rewrite (connect_failure (U := ascii_only) (fault_at 0) example_db example_file 1);
    reflexivity.
Defined.

Lemma new_accounts_from_rows_witness :
  ∃ pm new_s new_a,
    (try_block (U := ascii_only) no_fault 1 example_file (open example_db)).1 = Return pm ∧
    accounts (database (import_accounts (U := ascii_only) no_fault example_db example_file 1)) =
      purge 1 (accounts example_db) ++ new_s ++ new_a ∧
    Forall (λ a, ∃ r, r ∈ synthetic_accounts example_file ∧
                      synthetic_account (U := ascii_only) 1 r (Account.id a) = Some a) new_s ∧
    Forall (λ a, ∃ r, r ∈ analytical_accounts example_file ∧
                      analytical_account (U := ascii_only) 1 pm r (Account.id a) = Some a)
           new_a ∧
    Account.id <$> (new_s ++ new_a) =
      seqZ (id_seq example_db) (Z.of_nat (length (new_s ++ new_a))) ∧
    id_seq (database (import_accounts (U := ascii_only) no_fault example_db example_file 1)) =
      id_seq example_db + Z.of_nat (length (new_s ++ new_a)).
Proof.
  apply (new_accounts_from_rows (U := ascii_only) no_fault example_db example_file 1).
  vm_compute. reflexivity.
Defined.

Lemma new_accounts_shape_witness :
  Account.level new_41 = level_of (Account.parent_id new_41) ∧
  get_account_class (U := ascii_only) (Account.code new_41)
    = Return (Account.account_class new_41).
Proof.
  destruct (new_accounts_shape (U := ascii_only) no_fault example_db example_file 1 new_41)
    as (_ & _ & _ & _ & Hclass & _ & _ & Hlevel & _); [compute_done | compute_done |].
  split; [exact Hlevel | exact Hclass].
Defined.

Lemma parent_exists_witness :
  ∃ b,
    b ∈ accounts (database (import_accounts (U := ascii_only) no_fault example_db
                              example_file 1)) ∧
    Account.id b = 4 ∧ Account.company_id b = 1 ∧
    Account.code b ∈ codes_in (U := ascii_only) (synthetic_accounts example_file) ∧
    select_id (Account.code b) 1
      (accounts (database (import_accounts (U := ascii_only) no_fault example_db
                             example_file 1))) = Some 4.
Proof.
  apply (parent_exists (U := ascii_only) no_fault example_db example_file 1 new_4111 4).
  - compute_done.
  - compute_done.
  - reflexivity.
Defined.

Lemma identifiers_stay_fresh_witness :
  fresh_ids (database (import_accounts (U := ascii_only) no_fault example_db example_file 1)).
Proof.
  apply (identifiers_stay_fresh (U := ascii_only) no_fault example_db example_file 1).
  split; compute_done.
Defined.

Lemma parent_map_is_lookup_witness :
  ∃ pm,
    (try_block (U := ascii_only) no_fault 1 example_file (open example_db)).1 = Return pm ∧
    ∀ p,
      (p ∈ codes_in (U := ascii_only) (synthetic_accounts example_file) →
       is_Some (pm !! p) ∧
       pm !! p = select_id p 1
         (accounts (database (import_accounts (U := ascii_only) no_fault example_db
                                example_file 1)))) ∧
      (p ∉ codes_in (U := ascii_only) (synthetic_accounts example_file) → pm !! p = None).
Proof.
  apply (parent_map_is_lookup (U := ascii_only) no_fault example_db example_file 1).
  vm_compute. reflexivity.
Defined.

Lemma no_rows_only_purge_witness :
  accounts (database (import_accounts (U := ascii_only) no_fault example_db [row_note] 1))
    = [seed_101; foreign_411].
Proof.
  destruct (no_rows_only_purge (U := ascii_only) no_fault example_db [row_note] 1)
    as [Hrun _]; [reflexivity | reflexivity |].
  rewrite Hrun. reflexivity.
Defined.

Lemma committed_count_witness :
  count_accounts 1
    (accounts (database (import_accounts (U := ascii_only) no_fault example_db example_file 1))) =
  (count_accounts 1 (purge 1 (accounts example_db)) +
   size ((list_to_set (codes_in (U := ascii_only) (synthetic_accounts example_file) ++
                       codes_in (U := ascii_only) (analytical_accounts example_file))
            : gset str) ∖
         list_to_set (codes_of 1 (purge 1 (accounts example_db)))))%nat.
Proof.
  apply (committed_count (U := ascii_only) no_fault example_db example_file 1).
  vm_compute. reflexivity.
Defined.

Lemma first_synthetic_row_wins_witness :
  synthetic_account (U := ascii_only) 1 row_41 (Account.id new_41) = Some new_41.
Proof.
  destruct (first_synthetic_row_wins (U := ascii_only) no_fault example_db
              [row_41; row_41; row_4111] 1 [] row_41 [row_41] (lit "41")) as [_ Hall].
  - vm_compute. reflexivity.
  - vm_compute. reflexivity.
  - vm_compute. reflexivity.
  - compute_done.
  - apply Hall; [compute_done | reflexivity | reflexivity].
Defined.

Lemma first_analytical_row_wins_witness :
  ∃ pm,
    (try_block (U := ascii_only) no_fault 1 example_file (open example_db)).1 = Return pm ∧
    (∃ a, a ∈ accounts (database (import_accounts (U := ascii_only) no_fault example_db
                                    example_file 1)) ∧
          Account.code a = lit "4112" ∧ Account.company_id a = 1) ∧
    ∀ a, a ∈ accounts (database (import_accounts (U := ascii_only) no_fault example_db
                                   example_file 1)) →
         Account.code a = lit "4112" → Account.company_id a = 1 →
         analytical_account (U := ascii_only) 1 pm row_4112 (Account.id a) = Some a.
Proof.
  apply (first_analytical_row_wins (U := ascii_only) no_fault example_db example_file 1
           [row_4111] row_4112 [] (lit "4112")).
  - vm_compute. reflexivity.
  - vm_compute. reflexivity.
  - vm_compute. reflexivity.
  - compute_done.
Defined.

Lemma non_seed_accounts_recreated_witness :
  id_seq example_db ≤ Account.id new_41.
Proof.
  destruct (non_seed_accounts_recreated (U := ascii_only) no_fault example_db example_file 1
              new_41) as [[Hid _] _].
  - vm_compute. reflexivity.
  - compute_done.
  - reflexivity.
  - compute_done.
  - exact Hid.
Defined.

Lemma run_without_faults_witness :
  exit_status (import_accounts (U := ascii_only) no_fault example_db example_file 1) = 0.
Proof.
  apply (proj1 (run_without_faults (U := ascii_only) example_db example_file 1)).
  assert (synthetic_accounts example_file ++ analytical_accounts example_file =
          [row_41; row_4111; row_4112]) as -> by (by vm_compute).
  repeat constructor;
    (do 6 eexists; split; [reflexivity | split; compute_done]).
Defined.

(** A NUL character in a code: the row can be read, the lookup is refused
    before it reaches the database, and the run ends in the second handler
    with the database as it was. *)
Example nul_character_in_code :
  readable (U := ascii_only) row_nul ∧ ¬ searchable (U := ascii_only) row_nul ∧
  raised (import_accounts (U := ascii_only) no_fault example_db [row_41; row_nul] 1)
    = Some OtherError ∧
  exit_status (import_accounts (U := ascii_only) no_fault example_db [row_41; row_nul] 1) = 1 ∧
  accounts (database (import_accounts (U := ascii_only) no_fault example_db [row_41; row_nul] 1))
    = accounts example_db.
Proof.
  split; [by eexists |]. split; [| by vm_compute].
  intros (_ & code & [= <-] & Hcode). apply Hcode. compute_done.
Qed.
